(** * TriviaGame: the question loader and the quiz state machine

    A shallow embedding of [src/components/TrivaGame.jsx].  The React
    component keeps eight [useState] cells; they become the record
    [State].  Every setter call is an [Update]; a handler is a function
    from the values captured by the render it belongs to, to the updates
    it issues and the timers it schedules.  The remote service and
    [Math.random] are oracles indexed by the number of calls made so far. *)

From Stdlib Require Import ZArith QArith Lqa String List Bool Lia Permutation.
From stdpp Require Import base list.
From Equations Require Import Equations.
Import ListNotations.

Local Open Scope Z_scope.

(** ** Data *)

(** One item of [response.data.results]. *)
Record Question := mkQuestion {
  question : string;
  correct_answer : string;
  incorrect_answers : list string
}.

(** The [useState] cells of the component, in declaration order. *)
Record State := mkState {
  questions : list Question;
  loading : bool;
  error : option string;
  currentQuestionIndex : Z;
  selectedAnswer : option string;
  score : Z;
  showResult : bool;
  gameOver : bool
}.

(** The arguments of the [useState] calls. *)
Definition initialState : State :=
  {| questions := []; loading := true; error := None;
     currentQuestionIndex := 0; selectedAnswer := None; score := 0;
     showResult := false; gameOver := false |}.

(** A call of one of the eight setters. *)
Inductive Update :=
| SetQuestions (qs : list Question)
| SetLoading (b : bool)
| SetError (e : option string)
| SetCurrentQuestionIndex (i : Z)
| SetSelectedAnswer (a : option string)
| SetScore (n : Z)
| SetShowResult (b : bool)
| SetGameOver (b : bool).

Definition applyUpdate (s : State) (u : Update) : State :=
  match u with
  | SetQuestions qs =>
      mkState qs (loading s) (error s) (currentQuestionIndex s)
              (selectedAnswer s) (score s) (showResult s) (gameOver s)
  | SetLoading b =>
      mkState (questions s) b (error s) (currentQuestionIndex s)
              (selectedAnswer s) (score s) (showResult s) (gameOver s)
  | SetError e =>
      mkState (questions s) (loading s) e (currentQuestionIndex s)
              (selectedAnswer s) (score s) (showResult s) (gameOver s)
  | SetCurrentQuestionIndex i =>
      mkState (questions s) (loading s) (error s) i
              (selectedAnswer s) (score s) (showResult s) (gameOver s)
  | SetSelectedAnswer a =>
      mkState (questions s) (loading s) (error s) (currentQuestionIndex s)
              a (score s) (showResult s) (gameOver s)
  | SetScore n =>
      mkState (questions s) (loading s) (error s) (currentQuestionIndex s)
              (selectedAnswer s) n (showResult s) (gameOver s)
  | SetShowResult b =>
      mkState (questions s) (loading s) (error s) (currentQuestionIndex s)
              (selectedAnswer s) (score s) b (gameOver s)
  | SetGameOver b =>
      mkState (questions s) (loading s) (error s) (currentQuestionIndex s)
              (selectedAnswer s) (score s) (showResult s) b
  end.

(** The updates of one handler run are applied in call order. *)
Definition applyUpdates (s : State) (us : list Update) : State :=
  fold_left applyUpdate us s.

(** [arr[i]] for a JS array and an integer index: [undefined] (here
    [None]) outside [0 .. length-1]. *)
Definition jsIndex {A : Type} (arr : list A) (i : Z) : option A :=
  if i <? 0 then None else arr !! Z.to_nat i.

(** [arr.length] *)
Definition jsLength {A : Type} (arr : list A) : Z := Z.of_nat (length arr).

(** ** The loader: [fetchQuestions] *)

Module Loader.

(** [tokenResponse.data]; [token] is [undefined] when the field is absent. *)
Record TokenData := mkTokenData { token : option string }.

(** [response.data] of the question endpoint. *)
Record ApiData := mkApiData {
  response_code : Z;
  results : list Question
}.

(** [axios.get] either resolves with the response data or rejects with an
    error whose [response.status] is the HTTP status ([None] when the
    request got no response at all). *)
Inductive HttpResult (D : Type) :=
| Resolved (data : D)
| Rejected (status : option Z).
Arguments Resolved {D} data.
Arguments Rejected {D} status.

(** What the [catch] clause can receive. *)
Inductive Exn :=
| AxiosError (status : option Z)
| JsError (message : string).

(** The remote service: the answer to the n-th request to each endpoint. *)
Record Server := mkServer {
  tokenEndpoint : nat -> HttpResult TokenData;
  questionEndpoint : nat -> string -> HttpResult ApiData
}.

Inductive Endpoint := TokenApi | QuestionApi.

(** What a run of the loader does, in order. *)
Inductive Action :=
| Get (e : Endpoint) (url : string)
| Set_ (u : Update)
| Log (attempt : nat)
| SetTimeout (retryCount : nat) (ms : Z).

(** The loader's world: the component, the requests sent so far to each
    endpoint, the time spent in retry delays, and the actions so far. *)
Record Run := mkRun {
  comp : State;
  tokenRequests : nat;
  questionRequests : nat;
  waited : Z;
  actions : list Action
}.

Definition start : Run :=
  {| comp := initialState; tokenRequests := 0; questionRequests := 0;
     waited := 0; actions := [] |}.

Definition set (u : Update) (w : Run) : Run :=
  mkRun (applyUpdate (comp w) u) (tokenRequests w) (questionRequests w)
        (waited w) (actions w ++ [Set_ u]).

Definition tokenUrl : string :=
  "https://opentdb.com/api_token.php?command=request"%string.

(** The template literal; [undefined] is rendered as the word. *)
Definition questionsUrl (tok : option string) : string :=
  String.append
    "https://opentdb.com/api.php?amount=10&category=9&type=multiple&token="
    match tok with Some t => t | None => "undefined"%string end.

Definition getToken (srv : Server) (w : Run) : HttpResult TokenData * Run :=
  (tokenEndpoint srv (tokenRequests w),
   mkRun (comp w) (S (tokenRequests w)) (questionRequests w) (waited w)
         (actions w ++ [Get TokenApi tokenUrl])).

Definition getQuestions (srv : Server) (url : string) (w : Run)
  : HttpResult ApiData * Run :=
  (questionEndpoint srv (questionRequests w) url,
   mkRun (comp w) (tokenRequests w) (S (questionRequests w)) (waited w)
         (actions w ++ [Get QuestionApi url])).

(** The [try] block: the world it leaves and the exception it raised. *)
Definition tryBlock (srv : Server) (w : Run) : Run * option Exn :=
  let w := set (SetLoading true) w in
  let w := set (SetError None) w in
  let '(r, w) := getToken srv w in
  match r with
  | Rejected st => (w, Some (AxiosError st))
  | Resolved tokenResponse =>
      let '(r, w) := getQuestions srv (questionsUrl (token tokenResponse)) w in
      match r with
      | Rejected st => (w, Some (AxiosError st))
      | Resolved response =>
          if response_code response =? 0
          then (set (SetQuestions (results response)) w, None)
          else (w, Some (JsError "Invalid response from server"%string))
      end
  end.

(** [err.response?.status === 429] *)
Definition status429 (err : Exn) : bool :=
  match err with
  | AxiosError (Some st) => st =? 429
  | _ => false
  end.

Definition failureMessage : string :=
  "Failed to fetch questions. Please try refreshing the page in a few moments."%string.

(** The retrying branch of [catch]: log, schedule, [return]; then the
    [finally] block runs, and later the timer fires. *)
Definition scheduleRetry (retryCount : nat) (w : Run) : Run :=
  let w := mkRun (comp w) (tokenRequests w) (questionRequests w) (waited w)
                 (actions w ++ [Log (retryCount + 1);
                                SetTimeout (retryCount + 1) 2000]) in
  let w := set (SetLoading false) w in
  mkRun (comp w) (tokenRequests w) (questionRequests w) (waited w + 2000)
        (actions w).

(** The other branch of [catch], followed by [finally]. *)
Definition giveUp (w : Run) : Run :=
  set (SetLoading false) (set (SetError (Some failureMessage)) w).

(** [fetchQuestions(retryCount)], run until no timer of the loader is
    pending.  The recursive call is the timer callback. *)
Equations? fetchQuestions (srv : Server) (retryCount : nat) (w : Run) : Run
  by wf (3 - retryCount)%nat lt :=
fetchQuestions srv retryCount w with tryBlock srv w := {
  | (w1, None) := set (SetLoading false) w1;
  | (w1, Some err) with decide (retryCount < 3)%nat := {
      | left _ with status429 err := {
          | true := fetchQuestions srv (retryCount + 1) (scheduleRetry retryCount w1);
          | false := giveUp w1 };
      | right _ := giveUp w1 } }.
Proof. lia. Qed.

(** What an observer of the network and the clock sees of a run: the
    requests and the delays, in order. *)
Inductive Wire :=
| Req (e : Endpoint)
| Wait (ms : Z).

Definition wire (acts : list Action) : list Wire :=
  omap (fun a => match a with
                 | Get e _ => Some (Req e)
                 | SetTimeout _ ms => Some (Wait ms)
                 | _ => None
                 end) acts.

(** One pass through token request and question request. *)
Definition attempt : list Wire := [Req TokenApi; Req QuestionApi].

End Loader.

(** ** The handlers of the component *)

(** The callback given to [setTimeout] in [handleAnswerSelect].  It is a
    closure: it reads the [currentQuestionIndex] and the [questions] of
    the render in which the answer was clicked. *)
Record Timer := mkTimer {
  t_currentQuestionIndex : Z;
  t_questions : list Question;
  t_ms : Z
}.

(** What running a handler amounts to: the setter calls in order, the
    timers scheduled, and whether a [TypeError] ended it early. *)
Record Outcome := mkOutcome {
  updates : list Update;
  timers : list Timer;
  threw : bool
}.

(** [handleAnswerSelect(answer)] of the render that captured [r].
    [currentQuestion.correct_answer] throws when [currentQuestion] is
    [undefined]; the two setter calls before it have been made by then. *)
Definition handleAnswerSelect (r : State) (answer : string) : Outcome :=
  let currentQuestion := jsIndex (questions r) (currentQuestionIndex r) in
  let first := [SetSelectedAnswer (Some answer); SetShowResult true] in
  match currentQuestion with
  | None => mkOutcome first [] true
  | Some q =>
      mkOutcome
        (first ++ (if String.eqb answer (correct_answer q)
                   then [SetScore (score r + 1)] else []))
        [mkTimer (currentQuestionIndex r) (questions r) 1500]
        false
  end.

(** The body of the timer callback. *)
Definition advance (t : Timer) : list Update :=
  if t_currentQuestionIndex t <? jsLength (t_questions t) - 1
  then [SetCurrentQuestionIndex (t_currentQuestionIndex t + 1);
        SetSelectedAnswer None;
        SetShowResult false]
  else [SetGameOver true].

(** [handleRestartGame()] *)
Definition handleRestartGame (r : State) : Outcome :=
  mkOutcome [SetCurrentQuestionIndex 0; SetScore 0; SetSelectedAnswer None;
             SetShowResult false; SetGameOver false]
            [] false.

(** The state once the updates of a handler run are flushed. *)
Definition after (s : State) (o : Outcome) : State :=
  applyUpdates s (updates o).

(** ** [Array.prototype.sort] with the comparator [() => Math.random() - 0.5] *)

(** [Math.random]: the value of its n-th call.  The state threaded
    through the code below is the number of calls made so far. *)
Definition Random := nat -> Q.

(** A comparator that may draw random numbers. *)
Definition Comparator (A : Type) := A -> A -> nat -> Q * nat.

(** [() => Math.random() - 0.5]: both arguments are ignored.  The sort
    below looks only at the sign of the result, and for a draw in
    [0, 1) the sign of the rational difference is the sign of the
    floating-point one. *)
Definition comparefn (random : Random) : Comparator string :=
  fun _ _ k => ((random k - (1 # 2))%Q, S k).

(** The language leaves the sorting algorithm to the engine.  The model
    follows V8 (Chrome, Node), whose [Array.prototype.sort] is TimSort.
    For an array of fewer than 64 elements the minimal run length is the
    length itself, and the whole sort is: find the run at the start of
    the array, reversing it when it descends ([CountAndMakeRun]), then
    put each element after the run in its place by binary search
    ([BinaryInsertionSort]).  Longer arrays, which TimSort cuts into
    several runs and merges, are sorted here in the same way; a question
    has four answers. *)

(** [sortState.Compare(x, y) < 0] *)
Definition negative (order : Q) : bool :=
  match (order ?= 0)%Q with
  | Lt => true
  | _ => false
  end.

(** The loop of [CountAndMakeRun]:

      for (idx = low + 1; idx < high; ++idx) {
        currentElement = workArray[idx];
        order = Compare(currentElement, previousElement);
        if (isDescending) { if (order >= 0) break; }
        else { if (order < 0) break; }
        previousElement = currentElement;
        ++runLength;
      }

    It gives the further elements of the run and the elements after
    the run.  The comparison that ends the run has been made. *)
Fixpoint extendRun {A : Type} (cmp : Comparator A) (isDescending : bool)
  (previousElement : A) (rest : list A) (k : nat) : list A * list A * nat :=
  match rest with
  | [] => ([], [], k)
  | currentElement :: rest' =>
      let '(order, k1) := cmp currentElement previousElement k in
      if (if isDescending then negb (negative order) else negative order)
      then ([], rest, k1)
      else let '(run, todo, k2) :=
             extendRun cmp isDescending currentElement rest' k1 in
           (currentElement :: run, todo, k2)
  end.

(** [CountAndMakeRun(0, length)]: the first two elements are compared
    as [Compare(workArray[1], workArray[0])]; a negative result makes
    the run a descending one, which is reversed in place.  Gives the
    run as it then stands and the elements after it. *)
Definition countAndMakeRun {A : Type} (cmp : Comparator A) (a : list A)
  (k : nat) : list A * list A * nat :=
  match a with
  | elementHigh :: elementLow :: rest =>
      let '(order, k1) := cmp elementLow elementHigh k in
      let isDescending := negative order in
      let '(run, todo, k2) := extendRun cmp isDescending elementLow rest k1 in
      ((if isDescending then rev (elementHigh :: elementLow :: run)
        else elementHigh :: elementLow :: run),
       todo, k2)
  | _ => (a, [], k)
  end.

(** The search of [BinaryInsertionSort] for the place of [pivot] in the
    sorted part [workArray[0..start)]; [lo] and [hi] are its [left] and
    [right]:

      while (left < right) {
        mid = left + ((right - left) >> 1);
        order = Compare(pivot, workArray[mid]);
        if (order < 0) right = mid; else left = mid + 1;
      }

    [mid] stays below [hi], which starts at the length of [sorted], so
    the default given to [nth] is never read. *)
Equations? findSlot {A : Type} (cmp : Comparator A) (pivot : A)
  (sorted : list A) (lo hi : nat) (k : nat) : nat * nat
  by wf (hi - lo)%nat lt :=
findSlot cmp pivot sorted lo hi k with decide (lo < hi)%nat := {
  | right _ := (lo, k);
  | left _ with cmp pivot (nth (lo + (hi - lo) / 2) sorted pivot) k := {
      | (order, k1) with negative order := {
          | true := findSlot cmp pivot sorted lo (lo + (hi - lo) / 2) k1;
          | false := findSlot cmp pivot sorted (lo + (hi - lo) / 2 + 1) hi k1 } } }.
Proof.
  all: change (fst (Nat.divmod (hi - lo) 1 0 1)) with ((hi - lo) / 2)%nat.
  all: assert ((hi - lo) / 2 < hi - lo)%nat by (apply Nat.div_lt; lia); lia.
Qed.

(** [BinaryInsertionSort(0, runLength, length)]: each element after the
    run is moved to the slot found for it, the elements from that slot
    on sliding one place to the right. *)
Fixpoint binaryInsertionSort {A : Type} (cmp : Comparator A)
  (sorted todo : list A) (k : nat) : list A * nat :=
  match todo with
  | [] => (sorted, k)
  | pivot :: todo' =>
      let '(slot, k1) := findSlot cmp pivot sorted 0 (length sorted) k in
      binaryInsertionSort cmp (take slot sorted ++ pivot :: drop slot sorted)
                          todo' k1
  end.

(** An array of fewer than two elements is one run with nothing after
    it: it is returned as it is and the comparator is not called. *)
Definition jsSort {A : Type} (cmp : Comparator A) (a : list A) (k : nat)
  : list A * nat :=
  let '(run, todo, k1) := countAndMakeRun cmp a k in
  binaryInsertionSort cmp run todo k1.

(** [[...currentQuestion.incorrect_answers, currentQuestion.correct_answer]
     .sort(() => Math.random() - 0.5)] *)
Definition allAnswers (random : Random) (currentQuestion : Question) (k : nat)
  : list string * nat :=
  jsSort (comparefn random)
         (incorrect_answers currentQuestion ++ [correct_answer currentQuestion])
         k.

(** ** Rendering *)

(** One answer button: its text and its [disabled] attribute.  Its
    [onClick] is [handleAnswerSelect] applied to the text. *)
Record Button := mkButton {
  answer : string;
  disabled : bool
}.

(** What the component returns, without the markup. *)
Inductive View :=
| LoadingView
| ErrorView (message : string)
| GameOverView (finalScore total : Z)
| GameView (number total shownScore : Z) (text : string)
           (buttons : list Button) (feedback : option bool)
| NullView
| CrashView.

(** [if (error)]: [null] and the empty string are falsy. *)
Definition truthy (e : option string) : bool :=
  match e with
  | Some EmptyString | None => false
  | Some _ => true
  end.

(** [selectedAnswer === currentQuestion.correct_answer] *)
Definition isSelected (sel : option string) (a : string) : bool :=
  match sel with
  | Some x => String.eqb x a
  | None => false
  end.

(** The body of the component after the hooks: the view, and the number
    of [Math.random] calls made so far.  [CrashView] stands for the
    [TypeError] of [currentQuestion.incorrect_answers] on [undefined]. *)
Definition render (random : Random) (s : State) (k : nat) : View * nat :=
  if loading s then (LoadingView, k)
  else if truthy (error s) then (ErrorView (default EmptyString (error s)), k)
  else if gameOver s then (GameOverView (score s) (jsLength (questions s)), k)
  else if 0 <? jsLength (questions s) then
    match jsIndex (questions s) (currentQuestionIndex s) with
    | None => (CrashView, k)
    | Some currentQuestion =>
        let '(answers, k') := allAnswers random currentQuestion k in
        (GameView (currentQuestionIndex s + 1) (jsLength (questions s))
                  (score s) (question currentQuestion)
                  (map (fun a => mkButton a (showResult s)) answers)
                  (if showResult s
                   then Some (isSelected (selectedAnswer s)
                                         (correct_answer currentQuestion))
                   else None),
         k')
    end
  else (NullView, k).

(** The phases of the session, read off the branches of [render]:
    [Blank] is the final [return null]. *)
Inductive Phase := Loading | Failed | Active | Feedback | Finished | Blank.

Definition phase (s : State) : Phase :=
  if loading s then Loading
  else if truthy (error s) then Failed
  else if gameOver s then Finished
  else if 0 <? jsLength (questions s) then
    (if showResult s then Feedback else Active)
  else Blank.

(** ** The running component *)

(** The component between two events: its state, what is on screen (the
    last render), the timers not yet fired, and the position in the
    random source. *)
Record Sys := mkSys {
  st : State;
  shown : View;
  pending : list Timer;
  seed : nat
}.

(** A state change is followed by one render. *)
Definition commit (random : Random) (s : State) (ts : list Timer) (k : nat)
  : Sys :=
  let '(v, k') := render random s k in mkSys s v ts k'.

Inductive Event :=
| ClickAnswer (idx : nat)
| ClickRestart
| TimerFires (n : nat).

(** A click on the [idx]-th answer button.  A disabled button does not
    dispatch its [onClick]. *)
Definition clickAnswer (random : Random) (idx : nat) (sys : Sys) : Sys :=
  match shown sys with
  | GameView _ _ _ _ buttons _ =>
      match buttons !! idx with
      | Some b =>
          if disabled b then sys
          else let o := handleAnswerSelect (st sys) (answer b) in
               commit random (after (st sys) o) (pending sys ++ timers o)
                      (seed sys)
      | None => sys
      end
  | _ => sys
  end.

(** A click on "Play Again", which only the game-over screen has. *)
Definition clickRestart (random : Random) (sys : Sys) : Sys :=
  match shown sys with
  | GameOverView _ _ =>
      let o := handleRestartGame (st sys) in
      commit random (after (st sys) o) (pending sys ++ timers o) (seed sys)
  | _ => sys
  end.

(** The [n]-th pending timer fires. *)
Definition timerFires (random : Random) (n : nat) (sys : Sys) : Sys :=
  match pending sys !! n with
  | Some t =>
      commit random (applyUpdates (st sys) (advance t))
             (delete n (pending sys)) (seed sys)
  | None => sys
  end.

Definition step (random : Random) (e : Event) (sys : Sys) : Sys :=
  match e with
  | ClickAnswer idx => clickAnswer random idx sys
  | ClickRestart => clickRestart random sys
  | TimerFires n => timerFires random n sys
  end.

(** The component state the loader leaves after a successful fetch. *)
Definition loaded (batch : list Question) : State :=
  {| questions := batch; loading := false; error := None;
     currentQuestionIndex := 0; selectedAnswer := None; score := 0;
     showResult := false; gameOver := false |}.

Definition boot (random : Random) (batch : list Question) : Sys :=
  commit random (loaded batch) [] 0.

(** The states a session can be in once its batch is loaded. *)
Inductive reachable (random : Random) (batch : list Question) : Sys -> Prop :=
| reachable_boot : reachable random batch (boot random batch)
| reachable_step e sys :
    reachable random batch sys -> reachable random batch (step random e sys).

(** Running a list of events from left to right. *)
Definition play (random : Random) (es : list Event) (sys : Sys) : Sys :=
  fold_left (fun s e => step random e s) es sys.

(** The answer buttons on screen, and their texts in display order. *)
Definition shownButtons (v : View) : list Button :=
  match v with
  | GameView _ _ _ _ buttons _ => buttons
  | _ => []
  end.

Definition shownAnswers (sys : Sys) : list string :=
  map answer (shownButtons (shown sys)).

(** The state after [handleRestartGame] has run. *)
Definition restart (s : State) : State := after s (handleRestartGame s).

(** ** The invariant of a session *)

(** What holds of the timers and the score, by the flags of the state. *)
Definition settled (batch : list Question) (sys : Sys) : Prop :=
  if gameOver (st sys) then
    pending sys = [] /\ batch <> [] /\
    0 <= score (st sys) <= currentQuestionIndex (st sys) + 1
  else if showResult (st sys) then
    pending sys = [mkTimer (currentQuestionIndex (st sys)) batch 1500] /\
    batch <> [] /\
    0 <= score (st sys) <= currentQuestionIndex (st sys) + 1
  else
    pending sys = [] /\
    0 <= score (st sys) <= currentQuestionIndex (st sys).

(** The invariant of a session on [batch]: the screen is the render of
    the state, the loader's cells are at rest, the index is inside the
    batch, and [settled]. *)
Definition Inv (random : Random) (batch : list Question) (sys : Sys) : Prop :=
  (exists k, shown sys = fst (render random (st sys) k) /\
             seed sys = snd (render random (st sys) k)) /\
  questions (st sys) = batch /\
  loading (st sys) = false /\
  error (st sys) = None /\
  0 <= currentQuestionIndex (st sys) < Z.max 1 (jsLength batch) /\
  settled batch sys.

(** ** Scenarios *)

(** The service of the scenario: tokens are handed out, questions are
    refused with 429. *)
Definition alwaysRateLimited : Loader.Server :=
  Loader.mkServer
    (fun _ => Loader.Resolved (Loader.mkTokenData (Some "t0"%string)))
    (fun _ _ => Loader.Rejected (Some 429)).

(** A service whose question endpoint answers [response_code: 1]. *)
Definition noResults : Loader.Server :=
  Loader.mkServer
    (fun _ => Loader.Resolved (Loader.mkTokenData (Some "t0"%string)))
    (fun _ _ => Loader.Resolved (Loader.mkApiData 1 [])).

Definition paris : Question :=
  mkQuestion "Capital of France?" "Paris" ["Rome"; "Oslo"; "Bern"]%string.

Definition fortyTwo : Question :=
  mkQuestion "Six times seven?" "42" ["7"; "41"; "43"]%string.

(** A random source: three draws of 0, then 0.9 for ever. *)
Definition shuffling : Random :=
  fun n => if (n <? 3)%nat then 0%Q else (9 # 10)%Q.

(** The first question on screen, nothing answered yet. *)
Definition fresh : Sys := boot shuffling [paris; fortyTwo].

(** The first button, "Paris", has been clicked; its timer is pending. *)
Definition answered : Sys := step shuffling (ClickAnswer 0) fresh.

(** Both questions answered, the second one wrongly ("7"). *)
Definition played : Sys :=
  play shuffling [ClickAnswer 0; TimerFires 0; ClickAnswer 0; TimerFires 0]
       fresh.

(** ** Further observations of a run and of a round *)

(** The addresses a run of the loader requested, in order. *)
Definition urls (acts : list Loader.Action) : list string :=
  omap (fun a => match a with Loader.Get _ url => Some url | _ => None end) acts.

(** What the service answered to the last token request of a run, and
    to its last question request when that was sent with the token of
    [d]. *)
Definition lastToken (srv : Loader.Server) (w : Loader.Run)
  : Loader.HttpResult Loader.TokenData :=
  Loader.tokenEndpoint srv (pred (Loader.tokenRequests w)).

Definition lastQuestions (srv : Loader.Server) (w : Loader.Run)
  (d : Loader.TokenData) : Loader.HttpResult Loader.ApiData :=
  Loader.questionEndpoint srv (pred (Loader.questionRequests w))
                          (Loader.questionsUrl (Loader.token d)).

(** How a run of the loader has ended.  Loaded: the last attempt got a
    token and, with it, a response whose [response_code] is 0, and the
    questions of that very response are in the component.  Failed: the
    error message is set, nothing is loaded, and the last attempt was
    refused a token, or was refused the questions, or got a response
    with another [response_code]. *)
Definition endedLoaded (srv : Loader.Server) (w : Loader.Run) : Prop :=
  exists d r,
    lastToken srv w = Loader.Resolved d /\
    lastQuestions srv w d = Loader.Resolved r /\
    Loader.response_code r = 0 /\
    Loader.comp w = loaded (Loader.results r).

Definition endedFailed (srv : Loader.Server) (w : Loader.Run) : Prop :=
  Loader.comp w = mkState [] false (Some Loader.failureMessage)
                          0 None 0 false false /\
  ((exists st, lastToken srv w = Loader.Rejected st) \/
   (exists d st, lastToken srv w = Loader.Resolved d /\
                 lastQuestions srv w d = Loader.Rejected st) \/
   (exists d r, lastToken srv w = Loader.Resolved d /\
                lastQuestions srv w d = Loader.Resolved r /\
                Loader.response_code r <> 0)).

(** The state in which the loader finds the component: nothing loaded,
    nothing played; [loading] and [error] as the previous attempt left
    them. *)
Definition unloaded (l : bool) (e : option string) : State :=
  mkState [] l e 0 None 0 false false.

(** An answer is selected and the timer this schedules fires. *)
Definition selectAndAdvance (s : State) (a : string) : State :=
  let o := handleAnswerSelect s a in
  fold_left (fun s' t => applyUpdates s' (advance t)) (timers o) (after s o).

(** How many picks equal the correct answer of the question at the same
    position. *)
Fixpoint hits (picks : list string) (qs : list Question) : Z :=
  match picks, qs with
  | a :: picks', q :: qs' =>
      (if String.eqb a (correct_answer q) then 1 else 0) + hits picks' qs'
  | _, _ => 0
  end.

(** The [backgroundColor] of the button of answer [a], as the style
    object computes it. *)
Definition backgroundColor (s : State) (currentQuestion : Question)
  (a : string) : string :=
  if showResult s then
    if String.eqb a (correct_answer currentQuestion) then "lightgreen"%string
    else if match selectedAnswer s with
            | Some x => String.eqb a x
            | None => false
            end
         then "lightcoral"%string
         else "black"%string
  else "black"%string.

(** What holds of the selected answer, by the flags of the state: none
    while a question is open; afterwards one of the answers of the
    current question, with [showResult] still set, and the index on the
    last question once the game is over. *)
Definition selection (sys : Sys) : Prop :=
  if showResult (st sys) then
    (exists a q,
      selectedAnswer (st sys) = Some a /\
      jsIndex (questions (st sys)) (currentQuestionIndex (st sys)) = Some q /\
      In a (correct_answer q :: incorrect_answers q)) /\
    (gameOver (st sys) = true ->
     currentQuestionIndex (st sys) = jsLength (questions (st sys)) - 1)
  else
    selectedAnswer (st sys) = None /\ gameOver (st sys) = false.

(** A service that refuses every token request with 429. *)
Definition tokenRateLimited : Loader.Server :=
  Loader.mkServer
    (fun _ => Loader.Rejected (Some 429))
    (fun _ _ => Loader.Resolved (Loader.mkApiData 0 [])).

(** A service whose question endpoint is down (status 500). *)
Definition questionsDown : Loader.Server :=
  Loader.mkServer
    (fun _ => Loader.Resolved (Loader.mkTokenData (Some "t0"%string)))
    (fun _ _ => Loader.Rejected (Some 500)).

(** A service that cannot be reached at all. *)
Definition unreachable : Loader.Server :=
  Loader.mkServer
    (fun _ => Loader.Rejected None)
    (fun _ _ => Loader.Rejected None).

(** A service that refuses the first two question requests with 429 and
    then delivers the two questions; its tokens are numbered. *)
Definition recovering : Loader.Server :=
  Loader.mkServer
    (fun n => Loader.Resolved
                (Loader.mkTokenData
                   (Some (match n with
                          | O => "t0" | 1%nat => "t1" | _ => "t2"
                          end)%string)))
    (fun n _ => if (n <? 2)%nat then Loader.Rejected (Some 429)
                else Loader.Resolved (Loader.mkApiData 0 [paris; fortyTwo])).

(** A random source that alternates 0.9 and 0.1 for five draws. *)
Definition alternating : Random :=
  fun n => match n with
           | 0%nat | 2%nat | 4%nat => (9 # 10)%Q
           | _ => (1 # 10)%Q
           end.

(** Two one-sided random sources. *)
Definition lowDraws : Random := fun _ => 0%Q.

Definition highDraws : Random := fun _ => (9 # 10)%Q.

(** * Properties *)

(** ** The loader *)

Section LoaderFacts.
Import Loader.
Variable srv : Server.

(** The three ways out of [fetchQuestions], one lemma each. *)
Lemma fetchQuestions_done retryCount w w1 :
  tryBlock srv w = (w1, None) ->
  fetchQuestions srv retryCount w = set (SetLoading false) w1.
Proof.
  intros E. rewrite (fetchQuestions_equation_1 srv retryCount w), E.
  reflexivity.
Qed.

Lemma fetchQuestions_retry retryCount w w1 err :
  tryBlock srv w = (w1, Some err) ->
  (retryCount < 3)%nat ->
  status429 err = true ->
  fetchQuestions srv retryCount w =
  fetchQuestions srv (retryCount + 1) (scheduleRetry retryCount w1).
Proof.
  intros E Hlt H429.
  rewrite (fetchQuestions_equation_1 srv retryCount w), E. simpl.
  destruct (decide (retryCount < 3)%nat) as [?|Hn]; [|lia].
  simpl. rewrite H429. reflexivity.
Qed.

Lemma fetchQuestions_giveUp retryCount w w1 err :
  tryBlock srv w = (w1, Some err) ->
  (3 <= retryCount)%nat \/ status429 err = false ->
  fetchQuestions srv retryCount w = giveUp w1.
Proof.
  intros E H.
  rewrite (fetchQuestions_equation_1 srv retryCount w), E. simpl.
  destruct (decide (retryCount < 3)%nat) as [Hlt|Hn]; simpl; [|reflexivity].
  destruct H as [H|H]; [lia|]. rewrite H. reflexivity.
Qed.

(** The [try] block when the token arrives and the question request is
    rejected. *)
Lemma tryBlock_question_rejected w d st :
  tokenEndpoint srv (tokenRequests w) = Resolved d ->
  questionEndpoint srv (questionRequests w) (questionsUrl (token d))
    = Rejected st ->
  tryBlock srv w =
  (mkRun (applyUpdate (applyUpdate (comp w) (SetLoading true)) (SetError None))
         (S (tokenRequests w)) (S (questionRequests w)) (waited w)
         (actions w ++ [Set_ (SetLoading true); Set_ (SetError None);
                        Get TokenApi tokenUrl;
                        Get QuestionApi (questionsUrl (token d))]),
   Some (AxiosError st)).
Proof.
  intros Ht Hq. unfold tryBlock, getToken, getQuestions, set. simpl.
  rewrite Ht. simpl. rewrite Hq. simpl.
  rewrite <- !app_assoc. reflexivity.
Qed.

(** The [try] block when both requests resolve. *)
Lemma tryBlock_resolved w d r :
  tokenEndpoint srv (tokenRequests w) = Resolved d ->
  questionEndpoint srv (questionRequests w) (questionsUrl (token d))
    = Resolved r ->
  tryBlock srv w =
  let w1 :=
    mkRun (applyUpdate (applyUpdate (comp w) (SetLoading true)) (SetError None))
          (S (tokenRequests w)) (S (questionRequests w)) (waited w)
          (actions w ++ [Set_ (SetLoading true); Set_ (SetError None);
                         Get TokenApi tokenUrl;
                         Get QuestionApi (questionsUrl (token d))]) in
  if response_code r =? 0
  then (set (SetQuestions (results r)) w1, None)
  else (w1, Some (JsError "Invalid response from server"%string)).
Proof.
  intros Ht Hq. unfold tryBlock, getToken, getQuestions, set. simpl.
  rewrite Ht. simpl. rewrite Hq. simpl.
  rewrite <- !app_assoc. reflexivity.
Qed.

Lemma wire_app a b : wire (a ++ b) = wire a ++ wire b.
Proof. unfold wire. apply omap_app. Qed.

(** One rate-limited attempt followed by the scheduling of the retry. *)
Lemma fetchQuestions_429_once retryCount w d :
  (retryCount < 3)%nat ->
  tokenEndpoint srv (tokenRequests w) = Resolved d ->
  questionEndpoint srv (questionRequests w) (questionsUrl (token d))
    = Rejected (Some 429) ->
  exists w',
    fetchQuestions srv retryCount w = fetchQuestions srv (retryCount + 1) w' /\
    tokenRequests w' = S (tokenRequests w) /\
    questionRequests w' = S (questionRequests w) /\
    waited w' = waited w + 2000 /\
    wire (actions w') = wire (actions w) ++ attempt ++ [Wait 2000] /\
    comp w' = applyUpdates (comp w)
                [SetLoading true; SetError None; SetLoading false].
Proof.
  intros Hlt Ht Hq.
  pose proof (tryBlock_question_rejected w d (Some 429) Ht Hq) as E.
  eexists. split.
  - exact (fetchQuestions_retry retryCount w _ _ E Hlt eq_refl).
  - unfold scheduleRetry, set. simpl.
    repeat split; try reflexivity.
    rewrite !wire_app. simpl. rewrite <- !app_assoc. reflexivity.
Qed.

End LoaderFacts.

(** A successful fetch leaves the component in [loaded] with the batch
    of the response. *)
Lemma fetchQuestions_success (srv : Loader.Server) d r :
  Loader.tokenEndpoint srv 0 = Loader.Resolved d ->
  Loader.questionEndpoint srv 0 (Loader.questionsUrl (Loader.token d))
    = Loader.Resolved r ->
  Loader.response_code r = 0 ->
  Loader.comp (Loader.fetchQuestions srv 0 Loader.start)
    = loaded (Loader.results r).
Proof.
  intros Ht Hq Hc.
  pose proof (tryBlock_resolved srv Loader.start d r Ht Hq) as E.
  rewrite Hc in E. simpl in E.
  rewrite (fetchQuestions_done srv 0 _ _ E). reflexivity.
Qed.

(** C1. Against a question endpoint that answers every request with
    status 429 (the token endpoint answering normally), [fetchQuestions]
    makes exactly four passes through token request and question
    request, waits 2000 ms before each of the three retries, and then
    stops: no further request, the error message set, [loading] false. *)
Theorem fetchQuestions_rate_limited (srv : Loader.Server) :
  (forall n, exists d, Loader.tokenEndpoint srv n = Loader.Resolved d) ->
  (forall n url,
      Loader.questionEndpoint srv n url = Loader.Rejected (Some 429)) ->
  Loader.wire (Loader.actions (Loader.fetchQuestions srv 0 Loader.start))
    = (Loader.attempt ++ [Loader.Wait 2000] ++
       Loader.attempt ++ [Loader.Wait 2000] ++
       Loader.attempt ++ [Loader.Wait 2000] ++
       Loader.attempt) /\
  Loader.tokenRequests (Loader.fetchQuestions srv 0 Loader.start) = 4%nat /\
  Loader.questionRequests (Loader.fetchQuestions srv 0 Loader.start) = 4%nat /\
  Loader.waited (Loader.fetchQuestions srv 0 Loader.start) = 3 * 2000 /\
  Loader.comp (Loader.fetchQuestions srv 0 Loader.start)
    = mkState [] false (Some Loader.failureMessage) 0 None 0 false false /\
  phase (Loader.comp (Loader.fetchQuestions srv 0 Loader.start)) = Failed.
Proof.
  intros Htok Hq.
  assert (Hone : forall rc w, (rc < 3)%nat -> exists w',
    Loader.fetchQuestions srv rc w = Loader.fetchQuestions srv (rc + 1) w' /\
    Loader.tokenRequests w' = S (Loader.tokenRequests w) /\
    Loader.questionRequests w' = S (Loader.questionRequests w) /\
    Loader.waited w' = Loader.waited w + 2000 /\
    Loader.wire (Loader.actions w')
      = Loader.wire (Loader.actions w) ++ Loader.attempt ++ [Loader.Wait 2000] /\
    Loader.comp w' = applyUpdates (Loader.comp w)
                       [SetLoading true; SetError None; SetLoading false]).
  { intros rc w Hlt. destruct (Htok (Loader.tokenRequests w)) as [d Hd].
    apply (fetchQuestions_429_once srv rc w d Hlt Hd), Hq. }
  destruct (Hone 0%nat Loader.start) as (w1 & E1 & T1 & Q1 & W1 & A1 & C1);
    [lia|].
  destruct (Hone 1%nat w1) as (w2 & E2 & T2 & Q2 & W2 & A2 & C2); [lia|].
  destruct (Hone 2%nat w2) as (w3 & E3 & T3 & Q3 & W3 & A3 & C3); [lia|].
  simpl in E1, E2, E3. rewrite E1, E2, E3.
  destruct (Htok (Loader.tokenRequests w3)) as [d Hd].
  pose proof (tryBlock_question_rejected srv w3 d (Some 429) Hd (Hq _ _)) as E.
  rewrite (fetchQuestions_giveUp srv 3 w3 _ _ E) by (left; lia).
  unfold Loader.giveUp, Loader.set. simpl.
  rewrite !wire_app, A3, A2, A1, T3, T2, T1, Q3, Q2, Q1, W3, W2, W1, C3, C2, C1.
  simpl. repeat split; reflexivity.
Qed.

Lemma fetchQuestions_rate_limited_witness :
  Loader.wire
    (Loader.actions (Loader.fetchQuestions alwaysRateLimited 0 Loader.start))
    = (Loader.attempt ++ [Loader.Wait 2000] ++
       Loader.attempt ++ [Loader.Wait 2000] ++
       Loader.attempt ++ [Loader.Wait 2000] ++
       Loader.attempt).
Proof.
  apply (fetchQuestions_rate_limited alwaysRateLimited).
  - intros n. eexists. reflexivity.
  - intros n url. reflexivity.
Defined.

(** C5. When the question endpoint answers with a [response_code] other
    than 0, the call of [fetchQuestions] that received it ends there,
    whatever its [retryCount]: the two requests of this attempt are the
    last ones, no timer is scheduled, no time is waited, and the error
    message is set. *)
Theorem fetchQuestions_invalid_response (srv : Loader.Server)
  (retryCount : nat) (w : Loader.Run) d r :
  Loader.tokenEndpoint srv (Loader.tokenRequests w) = Loader.Resolved d ->
  Loader.questionEndpoint srv (Loader.questionRequests w)
    (Loader.questionsUrl (Loader.token d)) = Loader.Resolved r ->
  Loader.response_code r <> 0 ->
  Loader.wire (Loader.actions (Loader.fetchQuestions srv retryCount w))
    = Loader.wire (Loader.actions w) ++ Loader.attempt /\
  Loader.tokenRequests (Loader.fetchQuestions srv retryCount w)
    = S (Loader.tokenRequests w) /\
  Loader.questionRequests (Loader.fetchQuestions srv retryCount w)
    = S (Loader.questionRequests w) /\
  Loader.waited (Loader.fetchQuestions srv retryCount w) = Loader.waited w /\
  Loader.comp (Loader.fetchQuestions srv retryCount w)
    = applyUpdates (Loader.comp w)
        [SetLoading true; SetError None;
         SetError (Some Loader.failureMessage); SetLoading false] /\
  phase (Loader.comp (Loader.fetchQuestions srv retryCount w)) = Failed.
Proof.
  intros Ht Hq Hc.
  pose proof (tryBlock_resolved srv w d r Ht Hq) as E.
  apply Z.eqb_neq in Hc. rewrite Hc in E. simpl in E.
  rewrite (fetchQuestions_giveUp srv retryCount w _ _ E) by (right; reflexivity).
  unfold Loader.giveUp, Loader.set. simpl.
  rewrite !wire_app. simpl. rewrite <- !app_assoc.
  repeat split; reflexivity.
Qed.

Lemma fetchQuestions_invalid_response_witness :
  Loader.wire (Loader.actions (Loader.fetchQuestions noResults 0 Loader.start))
    = Loader.attempt /\
  Loader.waited (Loader.fetchQuestions noResults 0 Loader.start) = 0.
Proof.
  destruct (fetchQuestions_invalid_response noResults 0 Loader.start
              (Loader.mkTokenData (Some "t0"%string)) (Loader.mkApiData 1 [])
              eq_refl eq_refl ltac:(discriminate))
    as (Hw & _ & _ & Hd & _).
  split; [exact Hw | exact Hd].
Defined.

(** ** The shuffle *)

Section SortFacts.
Context {A : Type}.
Variable cmp : Comparator A.

(** The run and what follows it are the array, cut in two. *)
Lemma extendRun_app (isDescending : bool) (previousElement : A)
  (rest : list A) (k : nat) :
  fst (fst (extendRun cmp isDescending previousElement rest k))
  ++ snd (fst (extendRun cmp isDescending previousElement rest k)) = rest.
Proof.
  revert previousElement k.
  induction rest as [|currentElement rest IH]; intros previousElement k; simpl.
  - reflexivity.
  - destruct (cmp currentElement previousElement k) as [order k1].
    destruct (if isDescending then negb (negative order) else negative order);
      simpl; [reflexivity|].
    specialize (IH currentElement k1).
    destruct (extendRun cmp isDescending currentElement rest k1)
      as [[run todo] k2].
    simpl in *. rewrite IH. reflexivity.
Qed.

(** Whatever the comparator answers, making the run only moves
    elements. *)
Lemma countAndMakeRun_Permutation (a : list A) (k : nat) :
  Permutation (fst (fst (countAndMakeRun cmp a k))
               ++ snd (fst (countAndMakeRun cmp a k))) a.
Proof.
  destruct a as [|elementHigh [|elementLow rest]]; simpl;
    try reflexivity.
  destruct (cmp elementLow elementHigh k) as [order k1].
  pose proof (extendRun_app (negative order) elementLow rest k1) as Hrun.
  destruct (extendRun cmp (negative order) elementLow rest k1)
    as [[run todo] k2].
  simpl in *. rewrite <- Hrun.
  destruct (negative order).
  - rewrite <- (Permutation_rev (elementHigh :: elementLow :: run)).
    reflexivity.
  - reflexivity.
Qed.

(** Nor does the insertion, wherever the search puts the pivot. *)
Lemma binaryInsertionSort_Permutation (sorted todo : list A) (k : nat) :
  Permutation (fst (binaryInsertionSort cmp sorted todo k)) (sorted ++ todo).
Proof.
  revert sorted k. induction todo as [|pivot todo IH]; intros sorted k; simpl.
  - rewrite app_nil_r. reflexivity.
  - destruct (findSlot cmp pivot sorted 0 (length sorted) k) as [slot k1].
    rewrite IH. rewrite <- (take_drop slot sorted) at 3.
    rewrite <- !app_assoc. simpl.
    apply Permutation_app_head. symmetry.
    rewrite Permutation_middle. reflexivity.
Qed.

Lemma jsSort_Permutation (a : list A) (k : nat) :
  Permutation (fst (jsSort cmp a k)) a.
Proof.
  unfold jsSort.
  pose proof (countAndMakeRun_Permutation a k) as Hrun.
  destruct (countAndMakeRun cmp a k) as [[run todo] k1]. simpl in Hrun.
  rewrite binaryInsertionSort_Permutation. exact Hrun.
Qed.

End SortFacts.

(** The shuffle of one question's answers only reorders them. *)
Lemma allAnswers_shuffles (random : Random) (q : Question) (k : nat) :
  Permutation (fst (allAnswers random q k))
              (correct_answer q :: incorrect_answers q).
Proof.
  unfold allAnswers. rewrite jsSort_Permutation.
  symmetry. apply Permutation_cons_append.
Qed.

(** C3. The presented answers are a permutation of the correct answer
    together with the incorrect answers, for every question (any number
    of incorrect answers, so in particular one or more), every random
    source and every position in it: as multisets the two are equal,
    every answer occurring on both sides the same number of times. *)
Theorem allAnswers_Permutation (random : Random) (q : Question) (k : nat) :
  Permutation (fst (allAnswers random q k))
              (correct_answer q :: incorrect_answers q) /\
  length (fst (allAnswers random q k)) = S (length (incorrect_answers q)) /\
  forall a : string,
    count_occ string_dec (fst (allAnswers random q k)) a
    = count_occ string_dec (correct_answer q :: incorrect_answers q) a.
Proof.
  pose proof (allAnswers_shuffles random q k) as P.
  split; [exact P|]. split.
  - rewrite (Permutation_length P). reflexivity.
  - intros a. revert a. apply (Permutation_count_occ string_dec), P.
Qed.

(** ** The state machine *)

Lemma st_commit random s ts k : st (commit random s ts k) = s.
Proof. unfold commit. destruct (render random s k). reflexivity. Qed.

Lemma pending_commit random s ts k : pending (commit random s ts k) = ts.
Proof. unfold commit. destruct (render random s k). reflexivity. Qed.

Lemma shown_commit random s ts k :
  shown (commit random s ts k) = fst (render random s k).
Proof. unfold commit. destruct (render random s k). reflexivity. Qed.

Lemma seed_commit random s ts k :
  seed (commit random s ts k) = snd (render random s k).
Proof. unfold commit. destruct (render random s k). reflexivity. Qed.

Lemma jsLength_nonneg {A} (l : list A) : 0 <= jsLength l.
Proof. unfold jsLength. lia. Qed.

Lemma jsLength_nil_iff {A} (l : list A) : jsLength l = 0 <-> l = [].
Proof.
  unfold jsLength. destruct l; simpl; split; intros H;
    try reflexivity; try discriminate; lia.
Qed.

(** Inside the bounds the index finds an element, outside it does not. *)
Lemma jsIndex_Some {A} (l : list A) (i : Z) :
  0 <= i < jsLength l -> exists x, jsIndex l i = Some x.
Proof.
  intros [H0 H1]. unfold jsIndex, jsLength in *.
  destruct (Z.ltb_spec i 0) as [?|_]; [lia|].
  destruct (lookup_lt_is_Some_2 l (Z.to_nat i)) as [x Hx]; [lia|].
  exists x. exact Hx.
Qed.

Lemma jsIndex_None {A} (l : list A) (i : Z) :
  ~ (0 <= i < jsLength l) -> jsIndex l i = None.
Proof.
  intros H. unfold jsIndex, jsLength in *.
  destruct (Z.ltb_spec i 0) as [?|?]; [reflexivity|].
  apply lookup_ge_None_2. lia.
Qed.

(** The game screen, when the flags select it. *)
Lemma render_game random s k q :
  loading s = false -> error s = None -> gameOver s = false ->
  jsIndex (questions s) (currentQuestionIndex s) = Some q ->
  0 < jsLength (questions s) ->
  render random s k =
  (GameView (currentQuestionIndex s + 1) (jsLength (questions s)) (score s)
            (question q)
            (map (fun a => mkButton a (showResult s))
                 (fst (allAnswers random q k)))
            (if showResult s
             then Some (isSelected (selectedAnswer s) (correct_answer q))
             else None),
   snd (allAnswers random q k)).
Proof.
  intros Hl He Hg Hq Hn. unfold render. rewrite Hl, He, Hg, Hq. simpl.
  destruct (Z.ltb_spec 0 (jsLength (questions s))) as [_|?]; [|lia].
  destruct (allAnswers random q k). reflexivity.
Qed.

(** Only a state with [gameOver] set shows the game-over screen. *)
Lemma render_GameOverView random s k a b :
  fst (render random s k) = GameOverView a b -> gameOver s = true.
Proof.
  unfold render.
  destruct (loading s); [discriminate|].
  destruct (truthy (error s)); [discriminate|].
  destruct (gameOver s); [reflexivity|].
  destruct (0 <? jsLength (questions s)); [|discriminate].
  destruct (jsIndex (questions s) (currentQuestionIndex s)); [|discriminate].
  destruct (allAnswers random q k). discriminate.
Qed.

Lemma Inv_boot random batch : Inv random batch (boot random batch).
Proof.
  unfold Inv, settled, boot.
  rewrite st_commit, pending_commit, shown_commit, seed_commit. simpl.
  pose proof (jsLength_nonneg batch).
  split; [exists 0%nat; split; reflexivity|].
  repeat split; lia.
Qed.

Lemma Inv_clickAnswer random batch idx sys :
  Inv random batch sys -> Inv random batch (clickAnswer random idx sys).
Proof.
  intros HI. pose proof HI as ((k & Hv & Hk) & Hq & Hl & He & Hi & Hs).
  unfold clickAnswer. rewrite Hv.
  destruct (gameOver (st sys)) eqn:Hg.
  { unfold render. rewrite Hl, He, Hg. simpl. exact HI. }
  destruct (Z.ltb_spec 0 (jsLength (questions (st sys)))) as [Hn|Hn].
  2:{ unfold render. rewrite Hl, He, Hg. simpl.
      destruct (Z.ltb_spec 0 (jsLength (questions (st sys)))); [lia|].
      exact HI. }
  rewrite Hq in Hn.
  destruct (jsIndex_Some batch (currentQuestionIndex (st sys))) as [q Hcur];
    [lia|].
  rewrite <- Hq in Hcur, Hn.
  rewrite (render_game random _ k q Hl He Hg Hcur Hn). simpl.
  rewrite list_lookup_fmap.
  destruct (fst (allAnswers random q k) !! idx) as [a|]; simpl; [|exact HI].
  destruct (showResult (st sys)) eqn:Hr; [exact HI|].
  unfold settled in Hs. rewrite Hg, Hr in Hs. destruct Hs as [Hp Hsc].
  unfold handleAnswerSelect. rewrite Hcur.
  unfold Inv, settled.
  rewrite st_commit, pending_commit, shown_commit, seed_commit.
  split; [exists (seed sys); split; reflexivity|].
  unfold after, applyUpdates. rewrite Hp, Hq in *.
  assert (batch <> []) by (intros ->; unfold jsLength in Hn; simpl in Hn; lia).
  destruct (String.eqb a (correct_answer q)); simpl;
    rewrite ?Hg; repeat split; auto; lia.
Qed.

Lemma Inv_clickRestart random batch sys :
  Inv random batch sys -> Inv random batch (clickRestart random sys).
Proof.
  intros HI. pose proof HI as ((k & Hv & Hk) & Hq & Hl & He & Hi & Hs).
  unfold clickRestart. destruct (shown sys) eqn:Hshown; try exact HI.
  symmetry in Hv. apply render_GameOverView in Hv.
  unfold settled in Hs. rewrite Hv in Hs. destruct Hs as (Hp & Hne & Hsc).
  unfold Inv, settled.
  rewrite st_commit, pending_commit, shown_commit, seed_commit.
  split; [exists (seed sys); split; reflexivity|].
  unfold after, applyUpdates. simpl. rewrite Hp.
  pose proof (jsLength_nonneg batch).
  repeat split; auto; lia.
Qed.

Lemma Inv_timerFires random batch n sys :
  Inv random batch sys -> Inv random batch (timerFires random n sys).
Proof.
  intros HI. pose proof HI as ((k & Hv & Hk) & Hq & Hl & He & Hi & Hs).
  unfold timerFires.
  destruct (pending sys !! n) as [t|] eqn:Ht; [|exact HI].
  unfold settled in Hs.
  destruct (gameOver (st sys)) eqn:Hg.
  { destruct Hs as (Hp & _). rewrite Hp in Ht. discriminate. }
  destruct (showResult (st sys)) eqn:Hr.
  2:{ destruct Hs as (Hp & _). rewrite Hp in Ht. discriminate. }
  destruct Hs as (Hp & Hne & Hsc). rewrite Hp in Ht.
  destruct n as [|n]; [|discriminate]. injection Ht as <-.
  unfold Inv, settled.
  rewrite st_commit, pending_commit, shown_commit, seed_commit.
  split; [exists (seed sys); split; reflexivity|].
  rewrite Hp. unfold advance, applyUpdates. simpl.
  destruct (Z.ltb_spec (currentQuestionIndex (st sys)) (jsLength batch - 1));
    simpl; rewrite ?Hg; repeat split; auto; lia.
Qed.

Lemma Inv_step random batch e sys :
  Inv random batch sys -> Inv random batch (step random e sys).
Proof.
  destruct e; simpl.
  - apply Inv_clickAnswer.
  - apply Inv_clickRestart.
  - apply Inv_timerFires.
Qed.

Lemma reachable_Inv random batch sys :
  reachable random batch sys -> Inv random batch sys.
Proof.
  induction 1 as [|e sys _ IH].
  - apply Inv_boot.
  - apply Inv_step, IH.
Qed.

Lemma reachable_play random batch es sys :
  reachable random batch sys -> reachable random batch (play random es sys).
Proof.
  revert sys. induction es as [|e es IH]; intros sys H; simpl.
  - exact H.
  - apply IH. constructor. exact H.
Qed.

(** The phase of a session at rest, by its two game flags. *)
Lemma phase_at_rest s :
  loading s = false -> error s = None ->
  phase s =
  if gameOver s then Finished
  else if 0 <? jsLength (questions s)
       then (if showResult s then Feedback else Active)
       else Blank.
Proof. intros Hl He. unfold phase. rewrite Hl, He. reflexivity. Qed.

(** C9. In every state a session on a loaded batch of N questions can
    reach, the batch is the loaded one, the score lies between 0 and N,
    and in the phases Active and Feedback the index lies inside the
    batch.  The bound on the score holds in the phase Finished too, that
    is, at the end of a playthrough. *)
Theorem score_and_index_bounds random batch sys :
  reachable random batch sys ->
  questions (st sys) = batch /\
  0 <= score (st sys) <= jsLength batch /\
  (phase (st sys) = Active \/ phase (st sys) = Feedback ->
   0 <= currentQuestionIndex (st sys) < jsLength (questions (st sys))).
Proof.
  intros Hr. apply reachable_Inv in Hr.
  destruct Hr as (_ & Hq & Hl & He & Hi & Hs).
  pose proof (jsLength_nonneg batch) as Hn.
  split; [exact Hq|]. split.
  - unfold settled in Hs.
    destruct (gameOver (st sys)); [|destruct (showResult (st sys))].
    + destruct Hs as (_ & Hne & Hsc).
      rewrite <- jsLength_nil_iff in Hne. lia.
    + destruct Hs as (_ & Hne & Hsc).
      rewrite <- jsLength_nil_iff in Hne. lia.
    + destruct Hs as (_ & Hsc). lia.
  - intros Hp. rewrite (phase_at_rest _ Hl He), Hq in Hp. rewrite Hq.
    destruct (gameOver (st sys)); [destruct Hp; discriminate|].
    destruct (Z.ltb_spec 0 (jsLength batch)); [lia|destruct Hp; discriminate].
Qed.

Lemma score_and_index_bounds_witness :
  0 <= score (st played) <= 2 /\ phase (st played) = Finished.
Proof.
  split; [|reflexivity].
  apply (score_and_index_bounds shuffling [paris; fortyTwo] played).
  apply reachable_play. constructor.
Defined.

(** C6. With the index inside the batch, [handleAnswerSelect] leaves the
    score one higher exactly when the selected string equals the
    [correct_answer] of the current question, and unchanged otherwise.
    The handler is given the string alone: neither the position of the
    button nor the order of the buttons enters. *)
Theorem score_incremented_iff_correct (r : State) (a : string) (q : Question) :
  jsIndex (questions r) (currentQuestionIndex r) = Some q ->
  (score (after r (handleAnswerSelect r a)) = score r + 1
   <-> a = correct_answer q) /\
  (a <> correct_answer q -> score (after r (handleAnswerSelect r a)) = score r) /\
  selectedAnswer (after r (handleAnswerSelect r a)) = Some a.
Proof.
  intros Hq. unfold handleAnswerSelect, after, applyUpdates. rewrite Hq.
  destruct (String.eqb_spec a (correct_answer q)) as [E|E]; simpl.
  - repeat split; auto. intros; contradiction.
  - repeat split; auto; [lia | intros; contradiction].
Qed.

Lemma score_incremented_iff_correct_witness :
  score (after (st fresh) (handleAnswerSelect (st fresh) "Paris")) = 0 + 1
  <-> "Paris"%string = "Paris"%string.
Proof.
  apply (score_incremented_iff_correct (st fresh) "Paris" paris).
  reflexivity.
Defined.

(** The same through the screen: whichever button of an Active screen is
    clicked, and whatever order the shuffle gave the buttons, the score
    goes up by one exactly for the button carrying the correct answer. *)
Lemma clickAnswer_score random batch sys idx b :
  reachable random batch sys ->
  phase (st sys) = Active ->
  shownButtons (shown sys) !! idx = Some b ->
  exists q,
    jsIndex (questions (st sys)) (currentQuestionIndex (st sys)) = Some q /\
    score (st (clickAnswer random idx sys)) =
    score (st sys) + (if String.eqb (answer b) (correct_answer q) then 1 else 0).
Proof.
  intros Hr Hp Hb. apply reachable_Inv in Hr.
  destruct Hr as ((k & Hv & Hk) & Hq & Hl & He & Hi & Hs).
  rewrite (phase_at_rest _ Hl He) in Hp.
  destruct (gameOver (st sys)) eqn:Hg; [discriminate|].
  destruct (Z.ltb_spec 0 (jsLength (questions (st sys)))) as [Hn|]; [|discriminate].
  destruct (showResult (st sys)) eqn:Hsr; [discriminate|].
  destruct (jsIndex_Some (questions (st sys)) (currentQuestionIndex (st sys)))
    as [q Hcur]; [rewrite Hq in *; lia|].
  exists q. split; [exact Hcur|].
  unfold clickAnswer. rewrite Hv in Hb |- *.
  rewrite (render_game random _ k q Hl He Hg Hcur Hn) in Hb |- *.
  simpl in Hb |- *. rewrite Hb.
  rewrite list_lookup_fmap in Hb.
  destruct (fst (allAnswers random q k) !! idx); [|discriminate].
  injection Hb as <-. rewrite Hsr. simpl.
  rewrite st_commit. unfold handleAnswerSelect, after, applyUpdates.
  rewrite Hcur.
  destruct (String.eqb s (correct_answer q)); simpl; lia.
Qed.

(** C10. [handleAnswerSelect] completes exactly when
    [currentQuestionIndex] lies inside [questions]; outside, the read of
    [correct_answer] on [undefined] throws.  On an empty batch it
    throws whatever the index. *)
Theorem handleAnswerSelect_throws_unless_in_bounds (r : State) (a : string) :
  threw (handleAnswerSelect r a) =
  negb ((0 <=? currentQuestionIndex r)
        && (currentQuestionIndex r <? jsLength (questions r))) /\
  threw (handleAnswerSelect
           (mkState [] (loading r) (error r) (currentQuestionIndex r)
                    (selectedAnswer r) (score r) (showResult r) (gameOver r))
           a) = true.
Proof.
  split.
  - unfold handleAnswerSelect.
    destruct (Z.leb_spec 0 (currentQuestionIndex r));
      destruct (Z.ltb_spec (currentQuestionIndex r) (jsLength (questions r)));
      simpl.
    + destruct (jsIndex_Some (questions r) (currentQuestionIndex r)) as [q Hq];
        [lia|]. rewrite Hq. reflexivity.
    + rewrite jsIndex_None by lia. reflexivity.
    + rewrite jsIndex_None by lia. reflexivity.
    + rewrite jsIndex_None by lia. reflexivity.
  - unfold handleAnswerSelect. simpl.
    rewrite jsIndex_None; [reflexivity|]. unfold jsLength. simpl. lia.
Qed.

(** What a session at rest shows in the phases Active and Feedback. *)
Lemma shown_game random batch sys :
  reachable random batch sys ->
  phase (st sys) = Active \/ phase (st sys) = Feedback ->
  exists q k,
    jsIndex (questions (st sys)) (currentQuestionIndex (st sys)) = Some q /\
    shownButtons (shown sys)
      = map (fun a => mkButton a (showResult (st sys)))
            (fst (allAnswers random q k)) /\
    seed sys = snd (allAnswers random q k).
Proof.
  intros Hr Hp. apply reachable_Inv in Hr.
  destruct Hr as ((k & Hv & Hk) & Hq & Hl & He & Hi & Hs).
  rewrite (phase_at_rest _ Hl He) in Hp.
  destruct (gameOver (st sys)) eqn:Hg; [destruct Hp; discriminate|].
  destruct (Z.ltb_spec 0 (jsLength (questions (st sys)))) as [Hn|];
    [|destruct Hp; discriminate].
  destruct (jsIndex_Some (questions (st sys)) (currentQuestionIndex (st sys)))
    as [q Hcur]; [rewrite Hq in *; lia|].
  exists q, k. split; [exact Hcur|].
  rewrite Hv, Hk, (render_game random _ k q Hl He Hg Hcur Hn). simpl.
  split; reflexivity.
Qed.

(** C2. In the phase Feedback selecting an answer is a no-op.  The only
    caller of [handleAnswerSelect] is the [onClick] of the answer
    buttons, and in Feedback every one of them is rendered with
    [disabled] set, so a click on any of them does not run the handler:
    the state (score and selected answer included), the screen and the
    pending timers stay as they are, and no further timer is
    scheduled. *)
Theorem clickAnswer_ignored_in_Feedback random batch sys idx :
  reachable random batch sys ->
  phase (st sys) = Feedback ->
  Forall (fun b => disabled b = true) (shownButtons (shown sys)) /\
  clickAnswer random idx sys = sys.
Proof.
  intros Hr Hp.
  destruct (shown_game random batch sys Hr (or_intror Hp))
    as (q & k & Hcur & Hb & _).
  apply reachable_Inv in Hr. destruct Hr as (_ & _ & Hl & He & _).
  rewrite (phase_at_rest _ Hl He) in Hp.
  assert (Hsr : showResult (st sys) = true).
  { destruct (gameOver (st sys)); [discriminate|].
    destruct (0 <? jsLength (questions (st sys))); [|discriminate].
    destruct (showResult (st sys)); [reflexivity|discriminate]. }
  rewrite Hsr in Hb. split.
  - rewrite Hb. apply Forall_fmap, Forall_true. intros a. reflexivity.
  - unfold clickAnswer. unfold shownButtons in Hb.
    destruct (shown sys); try reflexivity.
    rewrite Hb, list_lookup_fmap.
    destruct (fst (allAnswers random q k) !! idx); reflexivity.
Qed.

Lemma clickAnswer_ignored_in_Feedback_witness :
  phase (st answered) = Feedback /\
  clickAnswer shuffling 0 answered = answered.
Proof.
  split; [reflexivity|].
  apply (clickAnswer_ignored_in_Feedback shuffling [paris; fortyTwo] answered 0).
  - apply (reachable_step shuffling [paris; fortyTwo] (ClickAnswer 0) fresh).
    apply reachable_boot.
  - reflexivity.
Defined.

(** C4, as the code has it.  The order is derived by each render, not
    once per question: the click that takes an Active screen to Feedback
    re-renders the same question, and the answers then on screen are a
    new run of the shuffle on the next draws of the random source.  What
    is retained is the multiset: the new sequence is a permutation of
    the one shown before. *)
Theorem answers_rederived_on_render random batch sys idx b :
  reachable random batch sys ->
  phase (st sys) = Active ->
  shownButtons (shown sys) !! idx = Some b ->
  exists q,
    jsIndex (questions (st sys)) (currentQuestionIndex (st sys)) = Some q /\
    phase (st (clickAnswer random idx sys)) = Feedback /\
    currentQuestionIndex (st (clickAnswer random idx sys))
      = currentQuestionIndex (st sys) /\
    shownAnswers (clickAnswer random idx sys)
      = fst (allAnswers random q (seed sys)) /\
    Permutation (shownAnswers (clickAnswer random idx sys)) (shownAnswers sys).
Proof.
  intros Hr Hp Hb.
  destruct (shown_game random batch sys Hr (or_introl Hp))
    as (q & k & Hcur & Hbs & _).
  apply reachable_Inv in Hr.
  destruct Hr as (_ & Hq & Hl & He & Hi & Hs).
  rewrite (phase_at_rest _ Hl He) in Hp.
  destruct (gameOver (st sys)) eqn:Hg; [discriminate|].
  destruct (Z.ltb_spec 0 (jsLength (questions (st sys)))) as [Hn|];
    [|discriminate].
  destruct (showResult (st sys)) eqn:Hsr; [discriminate|].
  exists q. split; [exact Hcur|].
  assert (Hold : shownAnswers sys = fst (allAnswers random q k)).
  { unfold shownAnswers. rewrite Hbs, map_map. simpl. apply map_id. }
  unfold clickAnswer in *. unfold shownButtons in Hb, Hbs.
  destruct (shown sys); try discriminate. subst buttons.
  rewrite Hb. rewrite list_lookup_fmap in Hb.
  destruct (fst (allAnswers random q k) !! idx) as [a|]; [|discriminate].
  injection Hb as <-. simpl.
  set (s1 := after (st sys) (handleAnswerSelect (st sys) a)).
  assert (H1 : questions s1 = questions (st sys) /\ loading s1 = false /\
               error s1 = None /\ gameOver s1 = false /\
               showResult s1 = true /\
               currentQuestionIndex s1 = currentQuestionIndex (st sys)).
  { subst s1. unfold handleAnswerSelect, after, applyUpdates. rewrite Hcur.
    destruct (String.eqb a (correct_answer q)); simpl; repeat split; auto. }
  destruct H1 as (Q1 & L1 & E1 & G1 & R1 & I1).
  assert (Hcur1 : jsIndex (questions s1) (currentQuestionIndex s1) = Some q)
    by (rewrite Q1, I1; exact Hcur).
  assert (Hn1 : 0 < jsLength (questions s1)) by (rewrite Q1; exact Hn).
  assert (Hnew : shownAnswers (commit random s1
                   (pending sys ++ timers (handleAnswerSelect (st sys) a))
                   (seed sys))
                 = fst (allAnswers random q (seed sys))).
  { unfold shownAnswers. rewrite shown_commit.
    rewrite (render_game random s1 (seed sys) q L1 E1 G1 Hcur1 Hn1). simpl.
    rewrite map_map. simpl. apply map_id. }
  rewrite st_commit, Hnew, Hold.
  repeat split; auto.
  - rewrite (phase_at_rest _ L1 E1), G1, R1.
    destruct (Z.ltb_spec 0 (jsLength (questions s1))); [reflexivity|lia].
  - rewrite (allAnswers_shuffles random q (seed sys)).
    rewrite (allAnswers_shuffles random q k). reflexivity.
Qed.

Lemma answers_rederived_on_render_witness :
  phase (st fresh) = Active /\
  shownAnswers (clickAnswer shuffling 0 fresh)
    = fst (allAnswers shuffling paris (seed fresh)).
Proof.
  split; [reflexivity|].
  destruct (answers_rederived_on_render shuffling [paris; fortyTwo] fresh 0
              (mkButton "Paris" false)
              (reachable_boot shuffling [paris; fortyTwo]) eq_refl eq_refl)
    as (q & Hq & _ & _ & Hs & _).
  injection Hq as <-. exact Hs.
Defined.

(** C4, as stated, fails: the first question is shown in one order while
    Active and, once "Paris" is clicked, in another order during
    Feedback. *)
Lemma answer_order_changes_in_Feedback :
  phase (st fresh) = Active /\
  shownAnswers fresh = ["Paris"; "Bern"; "Oslo"; "Rome"]%string /\
  phase (st answered) = Feedback /\
  currentQuestionIndex (st answered) = currentQuestionIndex (st fresh) /\
  shownAnswers answered = ["Rome"; "Oslo"; "Bern"; "Paris"]%string /\
  shownAnswers answered <> shownAnswers fresh.
Proof. repeat split; try reflexivity. discriminate. Qed.

(** C7. In every Feedback state of a session exactly one timer is
    pending, set for 1500 ms.  When it fires: if the index is below
    [questions.length - 1], the index goes up by one, the selected
    answer is cleared and the phase is Active again; otherwise the phase
    is Finished.  Score and batch are left as they are. *)
Theorem timer_advances_or_finishes random batch sys :
  reachable random batch sys ->
  phase (st sys) = Feedback ->
  exists t,
    pending sys = [t] /\ t_ms t = 1500 /\
    st (timerFires random 0 sys) = applyUpdates (st sys) (advance t) /\
    pending (timerFires random 0 sys) = [] /\
    score (st (timerFires random 0 sys)) = score (st sys) /\
    questions (st (timerFires random 0 sys)) = questions (st sys) /\
    if currentQuestionIndex (st sys) <? jsLength (questions (st sys)) - 1
    then currentQuestionIndex (st (timerFires random 0 sys))
           = currentQuestionIndex (st sys) + 1 /\
         selectedAnswer (st (timerFires random 0 sys)) = None /\
         phase (st (timerFires random 0 sys)) = Active
    else phase (st (timerFires random 0 sys)) = Finished.
Proof.
  intros Hr Hp. apply reachable_Inv in Hr.
  destruct Hr as (_ & Hq & Hl & He & Hi & Hs).
  rewrite (phase_at_rest _ Hl He) in Hp. unfold settled in Hs.
  destruct (gameOver (st sys)) eqn:Hg; [discriminate|].
  destruct (Z.ltb_spec 0 (jsLength (questions (st sys)))) as [Hn|];
    [|discriminate].
  destruct (showResult (st sys)) eqn:Hsr; [|discriminate].
  destruct Hs as (Hpend & Hne & Hsc).
  eexists. split; [exact Hpend|]. split; [reflexivity|].
  unfold timerFires. rewrite Hpend. simpl.
  rewrite st_commit, pending_commit. unfold advance. simpl. rewrite Hq.
  destruct (Z.ltb_spec (currentQuestionIndex (st sys)) (jsLength batch - 1));
    unfold applyUpdates; simpl; repeat split; auto.
  - unfold phase. simpl. rewrite Hl, He, Hg, Hq. simpl.
    destruct (Z.ltb_spec 0 (jsLength batch)); [reflexivity|lia].
  - unfold phase. simpl. rewrite Hl, He. reflexivity.
Qed.

Lemma timer_advances_or_finishes_witness :
  phase (st answered) = Feedback /\
  currentQuestionIndex (st (timerFires shuffling 0 answered)) = 1 /\
  phase (st (timerFires shuffling 0 answered)) = Active.
Proof.
  split; [reflexivity|].
  destruct (timer_advances_or_finishes shuffling [paris; fortyTwo] answered
              (reachable_step shuffling [paris; fortyTwo] (ClickAnswer 0) fresh
                 (reachable_boot shuffling [paris; fortyTwo]))
              eq_refl)
    as (t & _ & _ & _ & _ & _ & _ & H).
  simpl in H. destruct H as (Hi & _ & Hp).
  split; [exact Hi | exact Hp].
Defined.

(** [handleRestartGame] writes five cells; the batch and the loader's
    two cells are not among them. *)
Lemma restart_frame (s : State) :
  restart s = mkState (questions s) (loading s) (error s) 0 None 0 false false.
Proof. reflexivity. Qed.

Lemma restart_restart (s : State) : restart (restart s) = restart s.
Proof. reflexivity. Qed.

Lemma iter_restart (n : nat) (s : State) :
  Nat.iter (S n) restart s = restart s.
Proof.
  induction n as [|n IH].
  - reflexivity.
  - change (restart (Nat.iter (S n) restart s) = restart s).
    rewrite IH. apply restart_restart.
Qed.

(** C8. From a Finished state of a session on [batch], running
    [handleRestartGame] once or any number of times more gives one and
    the same state: the one the loader left, Active, with index 0,
    score 0, no selected answer, and the batch untouched.  The handler
    schedules nothing, and the click on "Play Again" leaves no timer
    pending. *)
Theorem restart_idempotent random batch sys (n : nat) :
  reachable random batch sys ->
  phase (st sys) = Finished ->
  Nat.iter (S n) restart (st sys) = restart (st sys) /\
  restart (st sys) = loaded batch /\
  phase (restart (st sys)) = Active /\
  currentQuestionIndex (restart (st sys)) = 0 /\
  score (restart (st sys)) = 0 /\
  selectedAnswer (restart (st sys)) = None /\
  questions (restart (st sys)) = questions (st sys) /\
  timers (handleRestartGame (st sys)) = [] /\
  st (clickRestart random sys) = restart (st sys) /\
  pending (clickRestart random sys) = [].
Proof.
  intros Hr Hp. apply reachable_Inv in Hr.
  destruct Hr as ((k & Hv & Hk) & Hq & Hl & He & Hi & Hs).
  rewrite (phase_at_rest _ Hl He) in Hp. unfold settled in Hs.
  destruct (gameOver (st sys)) eqn:Hg.
  2:{ destruct (0 <? jsLength (questions (st sys)));
        [destruct (showResult (st sys))|]; discriminate. }
  destruct Hs as (Hpend & Hne & Hsc).
  assert (Hn : 0 < jsLength batch).
  { pose proof (jsLength_nonneg batch).
    rewrite <- jsLength_nil_iff in Hne. lia. }
  split; [apply iter_restart|].
  rewrite restart_frame, Hq, Hl, He.
  split; [reflexivity|]. split.
  { unfold phase. simpl.
    destruct (Z.ltb_spec 0 (jsLength batch)); [reflexivity|lia]. }
  repeat split.
  - unfold clickRestart. rewrite Hv. unfold render. rewrite Hl, He, Hg. simpl.
    rewrite st_commit. change (restart (st sys) = loaded batch).
    rewrite restart_frame, Hq, Hl, He. reflexivity.
  - unfold clickRestart. rewrite Hv. unfold render. rewrite Hl, He, Hg. simpl.
    rewrite pending_commit, Hpend. reflexivity.
Qed.

Lemma restart_idempotent_witness :
  phase (st played) = Finished /\
  Nat.iter 3 restart (st played) = restart (st played) /\
  restart (st played) = loaded [paris; fortyTwo].
Proof.
  split; [reflexivity|].
  destruct (restart_idempotent shuffling [paris; fortyTwo] played 2) as (H1 & H2 & _).
  - apply reachable_play. constructor.
  - reflexivity.
  - split; [exact H1 | exact H2].
Defined.

(** The scenario of the specification: two questions, "Paris" picked
    for the first and "7" for the second, gives score 1 and the phase
    Finished. *)
Example paris_then_seven :
  shownAnswers fresh !! 0%nat = Some "Paris"%string /\
  shownAnswers (play shuffling [ClickAnswer 0; TimerFires 0] fresh) !! 0%nat
    = Some "7"%string /\
  score (st played) = 1 /\
  phase (st played) = Finished.
Proof. repeat split; reflexivity. Qed.

(** * Further properties *)

(** ** The loader beyond the rate-limited and the invalid-response runs *)

Section MoreLoaderFacts.
Import Loader.
Variable srv : Server.

(** The [try] block when the token request is rejected: the question
    request is never sent. *)
Lemma tryBlock_token_rejected w st :
  tokenEndpoint srv (tokenRequests w) = Rejected st ->
  tryBlock srv w =
  (mkRun (applyUpdate (applyUpdate (comp w) (SetLoading true)) (SetError None))
         (S (tokenRequests w)) (questionRequests w) (waited w)
         (actions w ++ [Set_ (SetLoading true); Set_ (SetError None);
                        Get TokenApi tokenUrl]),
   Some (AxiosError st)).
Proof.
  intros Ht. unfold tryBlock, getToken, set. simpl.
  rewrite Ht. simpl. rewrite <- !app_assoc. reflexivity.
Qed.

Lemma urls_app a b : urls (a ++ b) = urls a ++ urls b.
Proof. unfold urls. apply omap_app. Qed.

Lemma status429_other st : st <> Some 429 -> status429 (AxiosError st) = false.
Proof.
  intros H. destruct st as [z|]; simpl; [|reflexivity].
  apply Z.eqb_neq. intros ->. apply H. reflexivity.
Qed.

End MoreLoaderFacts.

(** X1. A question request rejected with any status other than 429, or
    with no response at all, is not retried, whatever the retry count:
    the two requests of the attempt are the last ones, nothing is waited
    and the error message is set. *)
Theorem fetchQuestions_other_status_not_retried (srv : Loader.Server)
  (retryCount : nat) (w : Loader.Run) d st :
  Loader.tokenEndpoint srv (Loader.tokenRequests w) = Loader.Resolved d ->
  Loader.questionEndpoint srv (Loader.questionRequests w)
    (Loader.questionsUrl (Loader.token d)) = Loader.Rejected st ->
  st <> Some 429 ->
  Loader.wire (Loader.actions (Loader.fetchQuestions srv retryCount w))
    = Loader.wire (Loader.actions w) ++ Loader.attempt /\
  Loader.waited (Loader.fetchQuestions srv retryCount w) = Loader.waited w /\
  error (Loader.comp (Loader.fetchQuestions srv retryCount w))
    = Some Loader.failureMessage /\
  loading (Loader.comp (Loader.fetchQuestions srv retryCount w)) = false /\
  questions (Loader.comp (Loader.fetchQuestions srv retryCount w))
    = questions (Loader.comp w).
Proof.
  intros Ht Hq Hst.
  pose proof (tryBlock_question_rejected srv w d st Ht Hq) as E.
  rewrite (fetchQuestions_giveUp srv retryCount w _ _ E)
    by (right; apply status429_other, Hst).
  unfold Loader.giveUp, Loader.set. simpl.
  rewrite !wire_app. simpl. rewrite <- !app_assoc.
  repeat split; reflexivity.
Qed.

Lemma fetchQuestions_other_status_not_retried_witness :
  Loader.wire (Loader.actions (Loader.fetchQuestions questionsDown 0 Loader.start))
    = Loader.attempt /\
  Loader.waited (Loader.fetchQuestions questionsDown 0 Loader.start) = 0.
Proof.
  destruct (fetchQuestions_other_status_not_retried questionsDown 0 Loader.start
              (Loader.mkTokenData (Some "t0"%string)) (Some 500)
              eq_refl eq_refl ltac:(discriminate))
    as (Hw & Hd & _).
  split; [exact Hw | exact Hd].
Defined.

(** X2. When the token request is rejected with a status other than 429
    (or gets no response), the question request is never sent and the
    load fails at once, whatever the retry count. *)
Theorem fetchQuestions_token_failure (srv : Loader.Server)
  (retryCount : nat) (w : Loader.Run) st :
  Loader.tokenEndpoint srv (Loader.tokenRequests w) = Loader.Rejected st ->
  st <> Some 429 ->
  Loader.wire (Loader.actions (Loader.fetchQuestions srv retryCount w))
    = Loader.wire (Loader.actions w) ++ [Loader.Req Loader.TokenApi] /\
  Loader.questionRequests (Loader.fetchQuestions srv retryCount w)
    = Loader.questionRequests w /\
  Loader.waited (Loader.fetchQuestions srv retryCount w) = Loader.waited w /\
  error (Loader.comp (Loader.fetchQuestions srv retryCount w))
    = Some Loader.failureMessage /\
  loading (Loader.comp (Loader.fetchQuestions srv retryCount w)) = false.
Proof.
  intros Ht Hst.
  pose proof (tryBlock_token_rejected srv w st Ht) as E.
  rewrite (fetchQuestions_giveUp srv retryCount w _ _ E)
    by (right; apply status429_other, Hst).
  unfold Loader.giveUp, Loader.set. simpl.
  rewrite !wire_app. simpl. rewrite <- !app_assoc.
  repeat split; reflexivity.
Qed.

Lemma fetchQuestions_token_failure_witness :
  Loader.wire (Loader.actions (Loader.fetchQuestions unreachable 0 Loader.start))
    = [Loader.Req Loader.TokenApi] /\
  Loader.questionRequests (Loader.fetchQuestions unreachable 0 Loader.start)
    = 0%nat.
Proof.
  destruct (fetchQuestions_token_failure unreachable 0 Loader.start None
              eq_refl ltac:(discriminate))
    as (Hw & Hq & _).
  split; [exact Hw | exact Hq].
Defined.

(** X3. The retry covers the token request too: when every token
    request is rejected with 429, the loader asks for a token four
    times, 2000 ms apart, never reaches the question endpoint, and
    fails. *)
Theorem fetchQuestions_token_rate_limited (srv : Loader.Server) :
  (forall n, Loader.tokenEndpoint srv n = Loader.Rejected (Some 429)) ->
  Loader.wire (Loader.actions (Loader.fetchQuestions srv 0 Loader.start))
    = [Loader.Req Loader.TokenApi; Loader.Wait 2000;
       Loader.Req Loader.TokenApi; Loader.Wait 2000;
       Loader.Req Loader.TokenApi; Loader.Wait 2000;
       Loader.Req Loader.TokenApi] /\
  Loader.questionRequests (Loader.fetchQuestions srv 0 Loader.start) = 0%nat /\
  Loader.comp (Loader.fetchQuestions srv 0 Loader.start)
    = unloaded false (Some Loader.failureMessage).
Proof.
  intros Htok.
  assert (Hone : forall rc w l e, (rc < 3)%nat ->
    Loader.comp w = unloaded l e ->
    exists w',
      Loader.fetchQuestions srv rc w = Loader.fetchQuestions srv (rc + 1) w' /\
      Loader.comp w' = unloaded false None /\
      Loader.questionRequests w' = Loader.questionRequests w /\
      Loader.wire (Loader.actions w')
        = Loader.wire (Loader.actions w)
          ++ [Loader.Req Loader.TokenApi; Loader.Wait 2000]).
  { intros rc w l e Hlt Hc.
    pose proof (tryBlock_token_rejected srv w (Some 429) (Htok _)) as E.
    eexists. split.
    - exact (fetchQuestions_retry srv rc w _ _ E Hlt eq_refl).
    - unfold Loader.scheduleRetry, Loader.set. simpl. rewrite Hc.
      rewrite !wire_app. simpl. rewrite <- !app_assoc.
      repeat split; reflexivity. }
  destruct (Hone 0%nat Loader.start true None) as (w1 & E1 & C1 & Q1 & A1);
    [lia|reflexivity|].
  destruct (Hone 1%nat w1 false None) as (w2 & E2 & C2 & Q2 & A2); [lia|exact C1|].
  destruct (Hone 2%nat w2 false None) as (w3 & E3 & C3 & Q3 & A3); [lia|exact C2|].
  simpl in E1, E2, E3. rewrite E1, E2, E3.
  pose proof (tryBlock_token_rejected srv w3 (Some 429) (Htok _)) as E.
  rewrite (fetchQuestions_giveUp srv 3 w3 _ _ E) by (left; lia).
  unfold Loader.giveUp, Loader.set. simpl.
  rewrite !wire_app, A3, A2, A1, Q3, Q2, Q1, C3. simpl.
  repeat split; reflexivity.
Qed.

Lemma fetchQuestions_token_rate_limited_witness :
  Loader.questionRequests
    (Loader.fetchQuestions tokenRateLimited 0 Loader.start) = 0%nat.
Proof.
  apply (fetchQuestions_token_rate_limited tokenRateLimited).
  intros n. reflexivity.
Defined.

(** One rate-limited attempt, from a component with nothing loaded: the
    world in which the timer fires. *)
Lemma fetchQuestions_429_unloaded (srv : Loader.Server) retryCount w d l e :
  (retryCount < 3)%nat ->
  Loader.comp w = unloaded l e ->
  Loader.tokenEndpoint srv (Loader.tokenRequests w) = Loader.Resolved d ->
  Loader.questionEndpoint srv (Loader.questionRequests w)
    (Loader.questionsUrl (Loader.token d)) = Loader.Rejected (Some 429) ->
  exists w',
    Loader.fetchQuestions srv retryCount w
      = Loader.fetchQuestions srv (retryCount + 1) w' /\
    Loader.comp w' = unloaded false None /\
    Loader.tokenRequests w' = S (Loader.tokenRequests w) /\
    Loader.questionRequests w' = S (Loader.questionRequests w) /\
    Loader.waited w' = Loader.waited w + 2000 /\
    Loader.wire (Loader.actions w')
      = Loader.wire (Loader.actions w) ++ Loader.attempt ++ [Loader.Wait 2000] /\
    urls (Loader.actions w')
      = urls (Loader.actions w)
        ++ [Loader.tokenUrl; Loader.questionsUrl (Loader.token d)].
Proof.
  intros Hlt Hc Ht Hq.
  pose proof (tryBlock_question_rejected srv w d (Some 429) Ht Hq) as E.
  eexists. split.
  - exact (fetchQuestions_retry srv retryCount w _ _ E Hlt eq_refl).
  - unfold Loader.scheduleRetry, Loader.set. simpl. rewrite Hc.
    rewrite !wire_app, !urls_app. simpl. rewrite <- !app_assoc.
    repeat split; reflexivity.
Qed.

(** The requests and waits of [m] rate-limited attempts. *)
Lemma recover_from (srv : Loader.Server) (k : nat) (r : Loader.ApiData) :
  (k <= 3)%nat ->
  (forall n, exists d, Loader.tokenEndpoint srv n = Loader.Resolved d) ->
  (forall n url, (n < k)%nat ->
     Loader.questionEndpoint srv n url = Loader.Rejected (Some 429)) ->
  (forall url, Loader.questionEndpoint srv k url = Loader.Resolved r) ->
  Loader.response_code r = 0 ->
  forall m j w l e,
    (j + m = k)%nat ->
    Loader.questionRequests w = j ->
    Loader.comp w = unloaded l e ->
    Loader.comp (Loader.fetchQuestions srv j w) = loaded (Loader.results r) /\
    Loader.wire (Loader.actions (Loader.fetchQuestions srv j w))
      = Loader.wire (Loader.actions w)
        ++ concat (repeat (Loader.attempt ++ [Loader.Wait 2000]) m)
        ++ Loader.attempt /\
    Loader.waited (Loader.fetchQuestions srv j w)
      = Loader.waited w + 2000 * Z.of_nat m /\
    Loader.tokenRequests (Loader.fetchQuestions srv j w)
      = (Loader.tokenRequests w + m + 1)%nat.
Proof.
  intros Hk Htok H429 Hok Hcode.
  induction m as [|m IH]; intros j w l e Hj Hqr Hc.
  - assert (j = k) as -> by lia.
    destruct (Htok (Loader.tokenRequests w)) as [d Hd].
    pose proof (tryBlock_resolved srv w d r Hd) as E.
    rewrite Hqr in E. specialize (E (Hok _)).
    rewrite Hcode in E. simpl in E.
    rewrite (fetchQuestions_done srv k _ _ E).
    unfold Loader.set. simpl. rewrite Hc, !wire_app. simpl.
    rewrite <- !app_assoc. repeat split; try reflexivity; lia.
  - destruct (Htok (Loader.tokenRequests w)) as [d Hd].
    destruct (fetchQuestions_429_unloaded srv j w d l e) as
      (w' & E & C' & T' & Q' & W' & A' & _); auto; try lia.
    { rewrite Hqr. apply H429. lia. }
    rewrite E.
    destruct (IH (j + 1)%nat w' false None) as (I1 & I2 & I3 & I4);
      auto; try lia.
    rewrite I1, I2, I3, I4, A', W', T'. simpl.
    rewrite <- !app_assoc. simpl.
    repeat split; try reflexivity; lia.
Qed.

(** X4. A rate limit that lifts within the retry budget is survived:
    when the first [k <= 3] question requests are rejected with 429 and
    the next one succeeds with [response_code] 0, the loader makes k+1
    attempts, waits k times 2000 ms, and leaves the component loaded
    with the results, with no error and [loading] false.  For k = 0 this
    is the load that succeeds at once. *)
Theorem fetchQuestions_recovers (srv : Loader.Server) (k : nat)
  (r : Loader.ApiData) :
  (k <= 3)%nat ->
  (forall n, exists d, Loader.tokenEndpoint srv n = Loader.Resolved d) ->
  (forall n url, (n < k)%nat ->
     Loader.questionEndpoint srv n url = Loader.Rejected (Some 429)) ->
  (forall url, Loader.questionEndpoint srv k url = Loader.Resolved r) ->
  Loader.response_code r = 0 ->
  Loader.comp (Loader.fetchQuestions srv 0 Loader.start)
    = loaded (Loader.results r) /\
  Loader.wire (Loader.actions (Loader.fetchQuestions srv 0 Loader.start))
    = concat (repeat (Loader.attempt ++ [Loader.Wait 2000]) k)
      ++ Loader.attempt /\
  Loader.waited (Loader.fetchQuestions srv 0 Loader.start)
    = 2000 * Z.of_nat k /\
  Loader.tokenRequests (Loader.fetchQuestions srv 0 Loader.start)
    = (k + 1)%nat.
Proof.
  intros Hk Htok H429 Hok Hcode.
  destruct (recover_from srv k r Hk Htok H429 Hok Hcode k 0%nat Loader.start
              true None) as (H1 & H2 & H3 & H4); auto.
Qed.

Lemma fetchQuestions_recovers_witness :
  Loader.comp (Loader.fetchQuestions recovering 0 Loader.start)
    = loaded [paris; fortyTwo] /\
  Loader.waited (Loader.fetchQuestions recovering 0 Loader.start) = 4000.
Proof.
  destruct (fetchQuestions_recovers recovering 2
              (Loader.mkApiData 0 [paris; fortyTwo])) as (H1 & _ & H3 & _).
  - lia.
  - intros n. eexists. reflexivity.
  - intros n url Hn. simpl.
    destruct (Nat.ltb_spec n 2) as [_|Hge]; [reflexivity|lia].
  - intros url. reflexivity.
  - reflexivity.
  - split; [exact H1 | exact H3].
Defined.

(** What the [try] block leaves, whatever the service answers. *)
Lemma tryBlock_shape (srv : Loader.Server) (w : Loader.Run) l e :
  Loader.comp w = unloaded l e ->
  Loader.tokenRequests (fst (Loader.tryBlock srv w))
    = S (Loader.tokenRequests w) /\
  (Loader.questionRequests w
   <= Loader.questionRequests (fst (Loader.tryBlock srv w))
   <= S (Loader.questionRequests w))%nat /\
  Loader.waited (fst (Loader.tryBlock srv w)) = Loader.waited w /\
  match snd (Loader.tryBlock srv w) with
  | None => exists r, Loader.response_code r = 0 /\
                      Loader.comp (fst (Loader.tryBlock srv w))
                      = mkState (Loader.results r) true None 0 None 0 false false
  | Some _ => Loader.comp (fst (Loader.tryBlock srv w)) = unloaded true None
  end.
Proof.
  intros Hc.
  destruct (Loader.tokenEndpoint srv (Loader.tokenRequests w)) as [d|st] eqn:Ht.
  2:{ rewrite (tryBlock_token_rejected srv w st Ht). simpl. rewrite Hc.
      repeat split; auto. }
  destruct (Loader.questionEndpoint srv (Loader.questionRequests w)
              (Loader.questionsUrl (Loader.token d))) as [r|st] eqn:Hq.
  2:{ rewrite (tryBlock_question_rejected srv w d st Ht Hq). simpl. rewrite Hc.
      repeat split; auto. }
  rewrite (tryBlock_resolved srv w d r Ht Hq). simpl.
  destruct (Z.eqb_spec (Loader.response_code r) 0) as [E|E]; simpl; rewrite Hc.
  - repeat split; auto. exists r. split; [exact E|reflexivity].
  - repeat split; auto.
Qed.

(** The [try] block, by what the service answered to its requests. *)
Lemma tryBlock_cases (srv : Loader.Server) (w : Loader.Run) :
  (exists st,
     Loader.tokenEndpoint srv (Loader.tokenRequests w) = Loader.Rejected st /\
     snd (Loader.tryBlock srv w) = Some (Loader.AxiosError st) /\
     Loader.questionRequests (fst (Loader.tryBlock srv w))
       = Loader.questionRequests w) \/
  (exists d st,
     Loader.tokenEndpoint srv (Loader.tokenRequests w) = Loader.Resolved d /\
     Loader.questionEndpoint srv (Loader.questionRequests w)
       (Loader.questionsUrl (Loader.token d)) = Loader.Rejected st /\
     snd (Loader.tryBlock srv w) = Some (Loader.AxiosError st) /\
     Loader.questionRequests (fst (Loader.tryBlock srv w))
       = S (Loader.questionRequests w)) \/
  (exists d r,
     Loader.tokenEndpoint srv (Loader.tokenRequests w) = Loader.Resolved d /\
     Loader.questionEndpoint srv (Loader.questionRequests w)
       (Loader.questionsUrl (Loader.token d)) = Loader.Resolved r /\
     Loader.questionRequests (fst (Loader.tryBlock srv w))
       = S (Loader.questionRequests w) /\
     ((Loader.response_code r <> 0 /\
       snd (Loader.tryBlock srv w)
         = Some (Loader.JsError "Invalid response from server"%string)) \/
      (Loader.response_code r = 0 /\
       snd (Loader.tryBlock srv w) = None /\
       questions (Loader.comp (fst (Loader.tryBlock srv w)))
         = Loader.results r))).
Proof.
  destruct (Loader.tokenEndpoint srv (Loader.tokenRequests w)) as [d|st] eqn:Ht.
  2:{ left. exists st. rewrite (tryBlock_token_rejected srv w st Ht).
      repeat split; reflexivity. }
  destruct (Loader.questionEndpoint srv (Loader.questionRequests w)
              (Loader.questionsUrl (Loader.token d))) as [r|st] eqn:Hq.
  2:{ right. left. exists d, st.
      rewrite (tryBlock_question_rejected srv w d st Ht Hq).
      repeat split; auto. }
  right. right. exists d, r.
  rewrite (tryBlock_resolved srv w d r Ht Hq). simpl.
  destruct (Z.eqb_spec (Loader.response_code r) 0) as [E|E]; simpl.
  - repeat split; auto.
  - repeat split; auto.
Qed.

(** The two ways out of the last attempt. *)
Lemma giveUp_endedFailed (srv : Loader.Server) (w w1 : Loader.Run) err l e :
  Loader.comp w = unloaded l e ->
  Loader.tryBlock srv w = (w1, Some err) ->
  endedFailed srv (Loader.giveUp w1).
Proof.
  intros Hc E.
  destruct (tryBlock_shape srv w l e Hc) as (T1 & _ & _ & C1).
  pose proof (tryBlock_cases srv w) as Hcases.
  rewrite E in T1, C1, Hcases. simpl in T1, C1, Hcases.
  unfold endedFailed, lastToken, lastQuestions, Loader.giveUp, Loader.set.
  simpl. rewrite C1, T1. simpl. split; [reflexivity|].
  destruct Hcases as [(st & H1 & H2 & H3) | [(d & st & H1 & H2 & H3 & H4)
                     | (d & r & H1 & H2 & H3 & [(H4 & H5)|(H4 & H5 & _)])]].
  - left. exists st. exact H1.
  - right. left. exists d, st. rewrite H4. simpl. auto.
  - right. right. exists d, r. rewrite H3. simpl. auto.
  - discriminate.
Qed.

Lemma done_endedLoaded (srv : Loader.Server) (w w1 : Loader.Run) l e :
  Loader.comp w = unloaded l e ->
  Loader.tryBlock srv w = (w1, None) ->
  endedLoaded srv (Loader.set (SetLoading false) w1).
Proof.
  intros Hc E.
  destruct (tryBlock_shape srv w l e Hc) as (T1 & _ & _ & C1).
  pose proof (tryBlock_cases srv w) as Hcases.
  rewrite E in T1, C1, Hcases. simpl in T1, C1, Hcases.
  destruct C1 as (r0 & _ & C1).
  unfold endedLoaded, lastToken, lastQuestions, Loader.set.
  simpl. rewrite C1, T1. simpl.
  destruct Hcases as [(st & H1 & H2 & H3) | [(d & st & H1 & H2 & H3 & H4)
                     | (d & r & H1 & H2 & H3 & [(H4 & H5)|(H4 & H5 & H6)])]];
    try discriminate.
  exists d, r. rewrite H3. simpl. rewrite C1 in H6. simpl in H6.
  repeat split; auto. rewrite H6. reflexivity.
Qed.

(** The end of a run started at retry count [rc] after [rc] earlier
    attempts. *)
Lemma fetchQuestions_ends (srv : Loader.Server) :
  forall m rc w l e,
    (rc + m = 3)%nat ->
    Loader.comp w = unloaded l e ->
    Loader.tokenRequests w = rc ->
    (Loader.questionRequests w <= rc)%nat ->
    Loader.waited w = 2000 * Z.of_nat rc ->
    loading (Loader.comp (Loader.fetchQuestions srv rc w)) = false /\
    (1 <= Loader.tokenRequests (Loader.fetchQuestions srv rc w) <= 4)%nat /\
    (Loader.questionRequests (Loader.fetchQuestions srv rc w)
     <= Loader.tokenRequests (Loader.fetchQuestions srv rc w))%nat /\
    Loader.waited (Loader.fetchQuestions srv rc w)
      = 2000 * (Z.of_nat (Loader.tokenRequests (Loader.fetchQuestions srv rc w)) - 1) /\
    (endedFailed srv (Loader.fetchQuestions srv rc w) \/
     endedLoaded srv (Loader.fetchQuestions srv rc w)).
Proof.
  induction m as [|m IH]; intros rc w l e Hm Hc Ht Hq Hw;
    destruct (tryBlock_shape srv w l e Hc) as (T1 & Q1 & W1 & C1);
    destruct (Loader.tryBlock srv w) as [w1 [err|]] eqn:E; simpl in *.
  - rewrite (fetchQuestions_giveUp srv rc w _ _ E) by (left; lia).
    pose proof (giveUp_endedFailed srv w w1 err l e Hc E) as Hend.
    revert Hend. unfold Loader.giveUp, Loader.set. simpl. rewrite C1. simpl.
    intros Hend. repeat split; auto; lia.
  - rewrite (fetchQuestions_done srv rc w _ E).
    pose proof (done_endedLoaded srv w w1 l e Hc E) as Hend.
    destruct C1 as (r0 & Hr0 & C1).
    revert Hend. unfold Loader.set. simpl. rewrite C1. simpl.
    intros Hend. repeat split; auto; lia.
  - destruct (Loader.status429 err) eqn:H429.
    + rewrite (fetchQuestions_retry srv rc w _ _ E) by (auto; lia).
      apply (IH (rc + 1)%nat _ false None); try lia.
      * unfold Loader.scheduleRetry, Loader.set. simpl. rewrite C1. reflexivity.
      * unfold Loader.scheduleRetry, Loader.set. simpl. lia.
      * unfold Loader.scheduleRetry, Loader.set. simpl. lia.
      * unfold Loader.scheduleRetry, Loader.set. simpl. lia.
    + rewrite (fetchQuestions_giveUp srv rc w _ _ E) by (right; exact H429).
      pose proof (giveUp_endedFailed srv w w1 err l e Hc E) as Hend.
      revert Hend. unfold Loader.giveUp, Loader.set. simpl. rewrite C1. simpl.
      intros Hend. repeat split; auto; lia.
  - rewrite (fetchQuestions_done srv rc w _ E).
    pose proof (done_endedLoaded srv w w1 l e Hc E) as Hend.
    destruct C1 as (r0 & Hr0 & C1).
    revert Hend. unfold Loader.set. simpl. rewrite C1. simpl.
    intros Hend. repeat split; auto; lia.
Qed.

(** X5. Whatever the service answers, a load ends, with [loading] false,
    in one of two ways.  Loaded: the last attempt was given a token and
    its question request, sent with that token, was answered with
    [response_code] 0; the component then holds the questions of that
    very response, and no error.  Failed: nothing is loaded, the error
    message is set, and the last attempt was refused its token, or was
    refused the questions, or was answered with another
    [response_code].  The loader asks for a token between one and four
    times, sends at most one question request per token request, and
    has waited exactly 2000 ms between two attempts. *)
Theorem fetchQuestions_outcome (srv : Loader.Server) :
  loading (Loader.comp (Loader.fetchQuestions srv 0 Loader.start)) = false /\
  (1 <= Loader.tokenRequests (Loader.fetchQuestions srv 0 Loader.start) <= 4)%nat /\
  (Loader.questionRequests (Loader.fetchQuestions srv 0 Loader.start)
   <= Loader.tokenRequests (Loader.fetchQuestions srv 0 Loader.start))%nat /\
  Loader.waited (Loader.fetchQuestions srv 0 Loader.start)
    = 2000 * (Z.of_nat (Loader.tokenRequests
                          (Loader.fetchQuestions srv 0 Loader.start)) - 1) /\
  (endedFailed srv (Loader.fetchQuestions srv 0 Loader.start) \/
   endedLoaded srv (Loader.fetchQuestions srv 0 Loader.start)).
Proof. apply (fetchQuestions_ends srv 3 0%nat Loader.start true None); auto. Qed.

(** X6. While the loader waits for a retry the screen is blank, not the
    loading message: the [finally] block has set [loading] to false
    before the timer runs, and neither questions nor an error are
    there.  The state named here is the one in which the retrying call
    of [fetchQuestions] starts. *)
Theorem blank_while_waiting (srv : Loader.Server) (random : Random)
  (retryCount : nat) (w w1 : Loader.Run) (err : Loader.Exn) l e (k : nat) :
  Loader.comp w = unloaded l e ->
  Loader.tryBlock srv w = (w1, Some err) ->
  (retryCount < 3)%nat ->
  Loader.status429 err = true ->
  Loader.fetchQuestions srv retryCount w
    = Loader.fetchQuestions srv (retryCount + 1)
        (Loader.scheduleRetry retryCount w1) /\
  loading (Loader.comp (Loader.scheduleRetry retryCount w1)) = false /\
  phase (Loader.comp (Loader.scheduleRetry retryCount w1)) = Blank /\
  render random (Loader.comp (Loader.scheduleRetry retryCount w1)) k
    = (NullView, k).
Proof.
  intros Hc E Hlt H429.
  split; [exact (fetchQuestions_retry srv retryCount w w1 err E Hlt H429)|].
  destruct (tryBlock_shape srv w l e Hc) as (_ & _ & _ & C1).
  rewrite E in C1. simpl in C1.
  unfold Loader.scheduleRetry, Loader.set. simpl. rewrite C1.
  repeat split; reflexivity.
Qed.

Lemma blank_while_waiting_witness :
  phase (Loader.comp
           (Loader.scheduleRetry 0
              (fst (Loader.tryBlock alwaysRateLimited Loader.start)))) = Blank.
Proof.
  destruct (blank_while_waiting alwaysRateLimited shuffling 0 Loader.start
              (fst (Loader.tryBlock alwaysRateLimited Loader.start))
              (Loader.AxiosError (Some 429)) true None 0
              eq_refl eq_refl ltac:(lia) eq_refl) as (_ & _ & H & _).
  exact H.
Defined.

(** X7. Every attempt asks for a token of its own and sends the question
    request with that token: against a question endpoint that always
    answers 429, the addresses requested are the token address and the
    question address carrying the n-th token, for n = 0, 1, 2, 3. *)
Theorem fetchQuestions_fresh_token (srv : Loader.Server)
  (tok : nat -> option string) :
  (forall n, Loader.tokenEndpoint srv n
             = Loader.Resolved (Loader.mkTokenData (tok n))) ->
  (forall n url,
      Loader.questionEndpoint srv n url = Loader.Rejected (Some 429)) ->
  urls (Loader.actions (Loader.fetchQuestions srv 0 Loader.start))
    = [Loader.tokenUrl; Loader.questionsUrl (tok 0%nat);
       Loader.tokenUrl; Loader.questionsUrl (tok 1%nat);
       Loader.tokenUrl; Loader.questionsUrl (tok 2%nat);
       Loader.tokenUrl; Loader.questionsUrl (tok 3%nat)].
Proof.
  intros Htok Hq.
  destruct (fetchQuestions_429_unloaded srv 0 Loader.start _ true None
              ltac:(lia) eq_refl (Htok _) (Hq _ _))
    as (w1 & E1 & C1 & T1 & _ & _ & _ & U1).
  destruct (fetchQuestions_429_unloaded srv 1 w1 _ false None
              ltac:(lia) C1 (Htok _) (Hq _ _))
    as (w2 & E2 & C2 & T2 & _ & _ & _ & U2).
  destruct (fetchQuestions_429_unloaded srv 2 w2 _ false None
              ltac:(lia) C2 (Htok _) (Hq _ _))
    as (w3 & E3 & C3 & T3 & _ & _ & _ & U3).
  simpl in E1, E2, E3. rewrite E1, E2, E3.
  pose proof (tryBlock_question_rejected srv w3 _ (Some 429) (Htok _) (Hq _ _))
    as E.
  rewrite (fetchQuestions_giveUp srv 3 w3 _ _ E) by (left; lia).
  unfold Loader.giveUp, Loader.set. simpl.
  rewrite !urls_app, U3, U2, U1, T3, T2, T1. reflexivity.
Qed.

Lemma fetchQuestions_fresh_token_witness :
  urls (Loader.actions (Loader.fetchQuestions alwaysRateLimited 0 Loader.start))
    = [Loader.tokenUrl; Loader.questionsUrl (Some "t0"%string);
       Loader.tokenUrl; Loader.questionsUrl (Some "t0"%string);
       Loader.tokenUrl; Loader.questionsUrl (Some "t0"%string);
       Loader.tokenUrl; Loader.questionsUrl (Some "t0"%string)].
Proof.
  apply (fetchQuestions_fresh_token alwaysRateLimited
           (fun _ => Some "t0"%string)).
  - intros n. reflexivity.
  - intros n url. reflexivity.
Defined.

(** ** The state machine beyond the claims *)

(** The score of a session never leaves [0 .. N]. *)
Lemma Inv_score random batch sys :
  Inv random batch sys -> 0 <= score (st sys) <= jsLength batch.
Proof.
  intros (_ & Hq & Hl & He & Hi & Hs).
  pose proof (jsLength_nonneg batch) as Hn.
  unfold settled in Hs.
  destruct (gameOver (st sys)); [|destruct (showResult (st sys))].
  - destruct Hs as (_ & Hne & Hsc). rewrite <- jsLength_nil_iff in Hne. lia.
  - destruct Hs as (_ & Hne & Hsc). rewrite <- jsLength_nil_iff in Hne. lia.
  - destruct Hs as (_ & Hsc). lia.
Qed.

(** The flags of a session at rest, by its phase. *)
Lemma phase_flags s :
  loading s = false -> error s = None ->
  match phase s with
  | Finished => gameOver s = true
  | Feedback => gameOver s = false /\ showResult s = true /\
                0 < jsLength (questions s)
  | Active => gameOver s = false /\ showResult s = false /\
              0 < jsLength (questions s)
  | Blank => gameOver s = false /\ jsLength (questions s) <= 0
  | Loading | Failed => False
  end.
Proof.
  intros Hl He. rewrite (phase_at_rest s Hl He).
  destruct (gameOver s); [reflexivity|].
  destruct (Z.ltb_spec 0 (jsLength (questions s)));
    [destruct (showResult s)|]; auto.
Qed.

(** X8. A session never shows the loading message, the error message or
    a crashed render.  It shows the game-over screen exactly in the
    phase Finished, with the score and the size of the batch; a
    question in the phases Active and Feedback, numbered from 1 to N,
    with one button per answer; and nothing at all only when the batch
    is empty. *)
Theorem screen_of_session random batch sys :
  reachable random batch sys ->
  match shown sys with
  | GameView number total shownScore text buttons feedback =>
      (phase (st sys) = Active \/ phase (st sys) = Feedback) /\
      number = currentQuestionIndex (st sys) + 1 /\
      1 <= number <= total /\
      total = jsLength batch /\
      shownScore = score (st sys) /\
      0 <= shownScore <= total /\
      exists q, jsIndex batch (currentQuestionIndex (st sys)) = Some q /\
                text = question q /\
                length buttons = S (length (incorrect_answers q))
  | GameOverView finalScore total =>
      phase (st sys) = Finished /\
      finalScore = score (st sys) /\
      total = jsLength batch /\
      0 <= finalScore <= total
  | NullView => batch = [] /\ phase (st sys) = Blank
  | LoadingView | ErrorView _ | CrashView => False
  end.
Proof.
  intros Hr. apply reachable_Inv in Hr.
  pose proof (Inv_score _ _ _ Hr) as Hsc.
  destruct Hr as ((k & Hv & Hk) & Hq & Hl & He & Hi & Hs).
  rewrite Hv, (phase_at_rest _ Hl He).
  destruct (gameOver (st sys)) eqn:Hg.
  { unfold render. rewrite Hl, He, Hg, Hq. simpl. auto. }
  destruct (Z.ltb_spec 0 (jsLength (questions (st sys)))) as [Hn|Hn].
  - destruct (jsIndex_Some (questions (st sys)) (currentQuestionIndex (st sys)))
      as [q Hcur]; [rewrite Hq in *; lia|].
    rewrite (render_game random _ k q Hl He Hg Hcur Hn). simpl.
    rewrite Hq in *.
    split; [destruct (showResult (st sys)); auto|].
    repeat split; try lia.
    exists q. repeat split; auto.
    rewrite length_map, (Permutation_length (allAnswers_shuffles random q k)).
    reflexivity.
  - unfold render. rewrite Hl, He, Hg. simpl.
    destruct (Z.ltb_spec 0 (jsLength (questions (st sys)))); [lia|]. simpl.
    split; [|reflexivity].
    apply jsLength_nil_iff. pose proof (jsLength_nonneg batch).
    rewrite Hq in Hn. lia.
Qed.

Lemma screen_of_session_witness :
  shown played = GameOverView 1 2 /\ phase (st played) = Finished.
Proof.
  pose proof (screen_of_session shuffling [paris; fortyTwo] played
                (reachable_play shuffling [paris; fortyTwo] _ fresh
                   (reachable_boot shuffling [paris; fortyTwo]))) as H.
  split; [reflexivity | exact (proj1 H)].
Defined.

(** X9. A timer is pending only in the phase Feedback: in every other
    phase of a session none is, and a timer event changes nothing.  In
    Feedback there is never more than one. *)
Theorem no_timer_outside_Feedback random batch sys :
  reachable random batch sys ->
  (length (pending sys) <= 1)%nat /\
  (phase (st sys) <> Feedback ->
   pending sys = [] /\ forall n, timerFires random n sys = sys).
Proof.
  intros Hr. apply reachable_Inv in Hr.
  destruct Hr as (_ & Hq & Hl & He & Hi & Hs).
  rewrite (phase_at_rest _ Hl He). unfold settled in Hs.
  assert (Hnone : pending sys = [] ->
                  pending sys = [] /\ forall n, timerFires random n sys = sys).
  { intros Hp. split; [exact Hp|]. intros n. unfold timerFires.
    rewrite Hp. reflexivity. }
  destruct (gameOver (st sys)).
  { destruct Hs as (Hp & _).
    split; [rewrite Hp; simpl; lia | intros _; apply Hnone, Hp]. }
  destruct (showResult (st sys)).
  - destruct Hs as (Hp & Hne & _). split; [rewrite Hp; simpl; lia|].
    intros Hph. exfalso. apply Hph.
    destruct (Z.ltb_spec 0 (jsLength (questions (st sys)))); [reflexivity|].
    rewrite <- jsLength_nil_iff in Hne.
    pose proof (jsLength_nonneg batch). rewrite Hq in *. lia.
  - destruct Hs as (Hp & _).
    split; [rewrite Hp; simpl; lia | intros _; apply Hnone, Hp].
Qed.

Lemma no_timer_outside_Feedback_witness :
  pending played = [] /\ timerFires shuffling 0 played = played.
Proof.
  destruct (no_timer_outside_Feedback shuffling [paris; fortyTwo] played
              (reachable_play shuffling [paris; fortyTwo] _ fresh
                 (reachable_boot shuffling [paris; fortyTwo]))) as (_ & H).
  destruct (H ltac:(discriminate)) as (Hp & Hn).
  split; [exact Hp | exact (Hn 0%nat)].
Defined.

(** X10. "Play Again" exists only on the game-over screen: in every
    phase of a session other than Finished a restart click changes
    nothing. *)
Theorem clickRestart_only_when_Finished random batch sys :
  reachable random batch sys ->
  phase (st sys) <> Finished ->
  clickRestart random sys = sys.
Proof.
  intros Hr Hp. apply reachable_Inv in Hr.
  destruct Hr as ((k & Hv & Hk) & Hq & Hl & He & Hi & Hs).
  unfold clickRestart. destruct (shown sys) eqn:Hshown; try reflexivity.
  exfalso. apply Hp. rewrite (phase_at_rest _ Hl He).
  symmetry in Hv. apply render_GameOverView in Hv. rewrite Hv. reflexivity.
Qed.

Lemma clickRestart_only_when_Finished_witness :
  clickRestart shuffling answered = answered.
Proof.
  apply (clickRestart_only_when_Finished shuffling [paris; fortyTwo] answered).
  - apply (reachable_step shuffling [paris; fortyTwo] (ClickAnswer 0) fresh).
    apply reachable_boot.
  - discriminate.
Defined.

(** Where a click on a button position does nothing. *)
Lemma clickAnswer_inert random batch sys idx :
  reachable random batch sys ->
  phase (st sys) <> Active \/ shownButtons (shown sys) !! idx = None ->
  clickAnswer random idx sys = sys.
Proof.
  intros Hr Hp. apply reachable_Inv in Hr.
  destruct Hr as ((k & Hv & Hk) & Hq & Hl & He & Hi & Hs).
  unfold clickAnswer. rewrite Hv in Hp |- *.
  rewrite (phase_at_rest _ Hl He) in Hp.
  destruct (gameOver (st sys)) eqn:Hg.
  { unfold render. rewrite Hl, He, Hg. reflexivity. }
  destruct (Z.ltb_spec 0 (jsLength (questions (st sys)))) as [Hn|Hn].
  2:{ unfold render. rewrite Hl, He, Hg. simpl.
      destruct (Z.ltb_spec 0 (jsLength (questions (st sys)))); [lia|].
      reflexivity. }
  destruct (jsIndex_Some (questions (st sys)) (currentQuestionIndex (st sys)))
    as [q Hcur]; [rewrite Hq in *; lia|].
  rewrite (render_game random _ k q Hl He Hg Hcur Hn) in Hp |- *.
  simpl in Hp |- *. rewrite list_lookup_fmap in Hp |- *.
  destruct (fst (allAnswers random q k) !! idx) as [a|]; simpl in *;
    [|reflexivity].
  destruct (showResult (st sys)); [reflexivity|].
  destruct Hp as [Hp|Hp]; [contradiction|discriminate].
Qed.

(** X11. An answer can be given only in the phase Active: in every
    other phase of a session (game over and the blank screen included)
    a click on any button position changes nothing; and in Active it
    changes nothing when there is no button at that position. *)
Theorem clickAnswer_only_when_Active random batch sys idx :
  reachable random batch sys ->
  phase (st sys) <> Active \/ shownButtons (shown sys) !! idx = None ->
  clickAnswer random idx sys = sys.
Proof. apply clickAnswer_inert. Qed.

Lemma clickAnswer_only_when_Active_witness :
  clickAnswer shuffling 0 played = played.
Proof.
  apply (clickAnswer_only_when_Active shuffling [paris; fortyTwo] played 0).
  - apply reachable_play. constructor.
  - left. discriminate.
Defined.

(** X12. A batch with no questions leaves the session where it started
    for good: the screen is blank and no event changes anything. *)
Theorem empty_batch_is_inert random sys :
  reachable random [] sys ->
  sys = boot random [] /\ shown sys = NullView /\ phase (st sys) = Blank.
Proof.
  intros Hr.
  assert (H : sys = boot random []).
  { induction Hr as [|e sys _ IH]; [reflexivity|].
    rewrite IH. destruct e; reflexivity. }
  rewrite H. repeat split; reflexivity.
Qed.

Lemma empty_batch_is_inert_witness :
  play shuffling [ClickAnswer 0; TimerFires 0; ClickRestart] (boot shuffling [])
  = boot shuffling [].
Proof.
  apply (empty_batch_is_inert shuffling).
  apply reachable_play. constructor.
Defined.

(** The selected answer through the events of a session. *)
Lemma selection_step random batch e sys :
  Inv random batch sys -> selection sys -> selection (step random e sys).
Proof.
  intros HI Hsel. pose proof HI as ((k & Hv & Hk) & Hq & Hl & He & Hi & Hs).
  destruct e as [idx| |n]; simpl.
  - unfold clickAnswer. rewrite Hv.
    destruct (gameOver (st sys)) eqn:Hg.
    { unfold render. rewrite Hl, He, Hg. simpl. exact Hsel. }
    destruct (Z.ltb_spec 0 (jsLength (questions (st sys)))) as [Hn|Hn].
    2:{ unfold render. rewrite Hl, He, Hg. simpl.
        destruct (Z.ltb_spec 0 (jsLength (questions (st sys)))); [lia|].
        exact Hsel. }
    destruct (jsIndex_Some (questions (st sys)) (currentQuestionIndex (st sys)))
      as [q Hcur]; [rewrite Hq in *; lia|].
    rewrite (render_game random _ k q Hl He Hg Hcur Hn). simpl.
    rewrite list_lookup_fmap.
    destruct (fst (allAnswers random q k) !! idx) as [a|] eqn:Ha; simpl;
      [|exact Hsel].
    destruct (showResult (st sys)) eqn:Hr; [exact Hsel|].
    unfold selection. rewrite st_commit.
    unfold handleAnswerSelect, after, applyUpdates. rewrite Hcur.
    assert (Hin : In a (correct_answer q :: incorrect_answers q)).
    { apply (Permutation_in a (allAnswers_shuffles random q k)).
      apply list_elem_of_In. eapply list_elem_of_lookup_2. exact Ha. }
    destruct (String.eqb a (correct_answer q)); simpl; rewrite Hg;
      (split; [exists a, q; auto | discriminate]).
  - unfold clickRestart. destruct (shown sys); try exact Hsel.
    unfold selection. rewrite st_commit. simpl. auto.
  - unfold timerFires.
    destruct (pending sys !! n) as [t|] eqn:Ht; [|exact Hsel].
    unfold settled in Hs.
    destruct (gameOver (st sys)) eqn:Hg.
    { destruct Hs as (Hp & _). rewrite Hp in Ht. discriminate. }
    destruct (showResult (st sys)) eqn:Hr.
    2:{ destruct Hs as (Hp & _). rewrite Hp in Ht. discriminate. }
    destruct Hs as (Hp & Hne & Hsc). rewrite Hp in Ht.
    destruct n as [|n]; [|discriminate]. injection Ht as <-.
    unfold selection in *. rewrite Hr in Hsel. rewrite st_commit.
    unfold advance, applyUpdates. simpl. rewrite <- Hq.
    destruct (Z.ltb_spec (currentQuestionIndex (st sys))
                         (jsLength (questions (st sys)) - 1)); simpl.
    + auto.
    + rewrite Hr. split; [apply Hsel|]. intros _.
      rewrite <- jsLength_nil_iff in Hne.
      pose proof (jsLength_nonneg batch). rewrite Hq in *. lia.
Qed.

Lemma reachable_selection random batch sys :
  reachable random batch sys -> selection sys.
Proof.
  induction 1 as [|e sys Hr IH].
  - unfold selection, boot. rewrite st_commit. simpl. auto.
  - apply (selection_step random batch); [apply reachable_Inv, Hr | exact IH].
Qed.

(** X13. The selected answer of a session: none in the phase Active; in
    Feedback and in Finished it is one of the answers of the current
    question, and [showResult] is set.  The timer of the last question
    clears neither, so in Finished the index still points at the last
    question and its answer is still selected. *)
Theorem selected_answer_of_session random batch sys :
  reachable random batch sys ->
  (phase (st sys) = Active -> selectedAnswer (st sys) = None) /\
  (phase (st sys) = Feedback \/ phase (st sys) = Finished ->
   showResult (st sys) = true /\
   exists a q,
     selectedAnswer (st sys) = Some a /\
     jsIndex batch (currentQuestionIndex (st sys)) = Some q /\
     In a (correct_answer q :: incorrect_answers q)) /\
  (phase (st sys) = Finished ->
   currentQuestionIndex (st sys) = jsLength batch - 1).
Proof.
  intros Hr. pose proof (reachable_selection _ _ _ Hr) as Hsel.
  apply reachable_Inv in Hr.
  destruct Hr as (_ & Hq & Hl & He & Hi & Hs).
  rewrite (phase_at_rest _ Hl He). unfold selection in Hsel.
  rewrite Hq in *.
  destruct (showResult (st sys)) eqn:Hr.
  - destruct Hsel as (Hex & Hlast).
    split; [|split].
    + destruct (gameOver (st sys)); [|destruct (0 <? jsLength batch)];
        discriminate.
    + intros _. split; [reflexivity|exact Hex].
    + destruct (gameOver (st sys)); [auto|].
      destruct (0 <? jsLength batch); discriminate.
  - destruct Hsel as (Hnone & Hg). rewrite Hg.
    split; [auto|split].
    + destruct (0 <? jsLength batch); intros [X|X]; discriminate.
    + destruct (0 <? jsLength batch); discriminate.
Qed.

Lemma selected_answer_of_session_witness :
  selectedAnswer (st fresh) = None.
Proof.
  apply (selected_answer_of_session shuffling [paris; fortyTwo] fresh).
  - apply reachable_boot.
  - reflexivity.
Defined.

(** One round, on a state whose index is inside the batch. *)
Lemma selectAndAdvance_in_bounds (s : State) (a : string) (q : Question) :
  jsIndex (questions s) (currentQuestionIndex s) = Some q ->
  selectAndAdvance s a =
  if currentQuestionIndex s <? jsLength (questions s) - 1
  then mkState (questions s) (loading s) (error s)
               (currentQuestionIndex s + 1) None
               (score s + (if String.eqb a (correct_answer q) then 1 else 0))
               false (gameOver s)
  else mkState (questions s) (loading s) (error s)
               (currentQuestionIndex s) (Some a)
               (score s + (if String.eqb a (correct_answer q) then 1 else 0))
               true true.
Proof.
  intros Hcur. unfold selectAndAdvance, handleAnswerSelect, after, applyUpdates.
  rewrite Hcur. unfold advance. simpl.
  destruct (String.eqb a (correct_answer q)),
           (currentQuestionIndex s <? jsLength (questions s) - 1); simpl;
    rewrite ?Z.add_0_r; reflexivity.
Qed.

Lemma jsIndex_of_nat {A} (l : list A) (i : nat) :
  jsIndex l (Z.of_nat i) = l !! i.
Proof.
  unfold jsIndex. destruct (Z.ltb_spec (Z.of_nat i) 0); [lia|].
  rewrite Nat2Z.id. reflexivity.
Qed.

(** Picks for the questions from position [i] on, not reaching the last
    one. *)
Lemma play_some (batch : list Question) :
  forall picks (i : nat) sc,
    (i + length picks < length batch)%nat ->
    fold_left selectAndAdvance picks
      (mkState batch false None (Z.of_nat i) None sc false false)
    = mkState batch false None (Z.of_nat (i + length picks)) None
              (sc + hits picks (drop i batch)) false false.
Proof.
  induction picks as [|a picks IH]; intros i sc Hlen; simpl in *.
  - rewrite Nat.add_0_r, Z.add_0_r. reflexivity.
  - destruct (lookup_lt_is_Some_2 batch i) as [q Hq]; [lia|].
    rewrite (selectAndAdvance_in_bounds _ a q)
      by (simpl; rewrite jsIndex_of_nat; exact Hq).
    simpl. unfold jsLength.
    destruct (Z.ltb_spec (Z.of_nat i) (Z.of_nat (length batch) - 1)); [|lia].
    replace (Z.of_nat i + 1) with (Z.of_nat (S i)) by lia.
    rewrite IH by lia.
    rewrite (drop_S _ _ _ Hq). simpl.
    replace (S i + length picks)%nat with (i + S (length picks))%nat by lia.
    f_equal; [lia | symmetry; apply Z.add_assoc].
Qed.

Lemma hits_app picks a qs q :
  length picks = length qs ->
  hits (picks ++ [a]) (qs ++ [q])
  = hits picks qs + (if String.eqb a (correct_answer q) then 1 else 0).
Proof.
  revert qs. induction picks as [|p picks IH]; intros [|q0 qs] Hlen;
    simpl in *; try discriminate.
  - lia.
  - rewrite IH by lia. lia.
Qed.

Lemma hits_short picks qs q :
  (length picks <= length qs)%nat ->
  hits picks (qs ++ [q]) = hits picks qs.
Proof.
  revert qs. induction picks as [|p picks IH]; intros [|q0 qs] Hlen;
    simpl in *; try lia.
  rewrite IH by lia. reflexivity.
Qed.

(** X14. Playing a loaded batch from its first question, one pick per
    question, each pick followed by its timer: after fewer picks than
    questions the session is Active on the next question; after as many
    picks as questions it is Finished, on the last index.  In both cases
    the score is the number of picks equal to the correct answer of
    their question. *)
Theorem playthrough_score (batch : list Question) (picks : list string) :
  (length picks <= length batch)%nat ->
  batch <> [] ->
  score (fold_left selectAndAdvance picks (loaded batch)) = hits picks batch /\
  questions (fold_left selectAndAdvance picks (loaded batch)) = batch /\
  ((length picks < length batch)%nat ->
   phase (fold_left selectAndAdvance picks (loaded batch)) = Active /\
   currentQuestionIndex (fold_left selectAndAdvance picks (loaded batch))
     = Z.of_nat (length picks)) /\
  (length picks = length batch ->
   phase (fold_left selectAndAdvance picks (loaded batch)) = Finished /\
   currentQuestionIndex (fold_left selectAndAdvance picks (loaded batch))
     = jsLength batch - 1).
Proof.
  intros Hlen Hne.
  assert (Hpos : (0 < length batch)%nat) by (destruct batch; simpl; [congruence|lia]).
  destruct (Nat.eq_dec (length picks) (length batch)) as [Heq|Hlt].
  - destruct (exists_last (l := picks)) as (init & a & ->).
    { intros ->. simpl in Heq. lia. }
    destruct (exists_last Hne) as (qs & q & ->).
    rewrite !length_app in *. simpl in *.
    rewrite fold_left_app. simpl.
    change (loaded (qs ++ [q]))
      with (mkState (qs ++ [q]) false None (Z.of_nat 0) None 0 false false).
    rewrite play_some by (rewrite length_app; simpl; lia).
    simpl drop. simpl Nat.add.
    assert (Hq : (qs ++ [q]) !! length init = Some q).
    { replace (length init) with (length qs) by lia.
      rewrite list_lookup_middle; reflexivity. }
    rewrite (selectAndAdvance_in_bounds _ a q)
      by (simpl; rewrite jsIndex_of_nat; exact Hq).
    simpl. unfold jsLength. rewrite length_app. simpl.
    destruct (Z.ltb_spec (Z.of_nat (length init))
                (Z.of_nat (length qs + 1) - 1)); [lia|]. simpl.
    rewrite hits_app by lia. rewrite drop_0, hits_short by lia.
    repeat split; auto; try lia.
  - change (loaded batch)
      with (mkState batch false None (Z.of_nat 0) None 0 false false).
    rewrite play_some by (simpl; lia). simpl.
    repeat split; auto; try lia.
    unfold phase. simpl. unfold jsLength.
    destruct (Z.ltb_spec 0 (Z.of_nat (length batch))); [reflexivity|lia].
Qed.

Lemma playthrough_score_witness :
  score (fold_left selectAndAdvance ["Paris"; "7"]%string
           (loaded [paris; fortyTwo])) = 1 /\
  phase (fold_left selectAndAdvance ["Paris"; "7"]%string
           (loaded [paris; fortyTwo])) = Finished.
Proof.
  destruct (playthrough_score [paris; fortyTwo] ["Paris"; "7"]%string)
    as (Hs & _ & _ & Hf).
  - simpl. lia.
  - discriminate.
  - split; [exact Hs | exact (proj1 (Hf eq_refl))].
Defined.

(** A click on an enabled answer button of a session, spelled out. *)
Lemma clickAnswer_Active random batch sys idx b :
  reachable random batch sys ->
  phase (st sys) = Active ->
  shownButtons (shown sys) !! idx = Some b ->
  exists q,
    jsIndex (questions (st sys)) (currentQuestionIndex (st sys)) = Some q /\
    In (answer b) (correct_answer q :: incorrect_answers q) /\
    pending sys = [] /\
    clickAnswer random idx sys
    = commit random (after (st sys) (handleAnswerSelect (st sys) (answer b)))
             (timers (handleAnswerSelect (st sys) (answer b))) (seed sys).
Proof.
  intros Hr Hp Hb. apply reachable_Inv in Hr.
  destruct Hr as ((k & Hv & Hk) & Hq & Hl & He & Hi & Hs).
  rewrite (phase_at_rest _ Hl He) in Hp. unfold settled in Hs.
  destruct (gameOver (st sys)) eqn:Hg; [discriminate|].
  destruct (Z.ltb_spec 0 (jsLength (questions (st sys)))) as [Hn|];
    [|discriminate].
  destruct (showResult (st sys)) eqn:Hsr; [discriminate|].
  destruct Hs as (Hpend & _).
  destruct (jsIndex_Some (questions (st sys)) (currentQuestionIndex (st sys)))
    as [q Hcur]; [rewrite Hq in *; lia|].
  exists q. split; [exact Hcur|].
  unfold clickAnswer. rewrite Hv in Hb |- *.
  rewrite (render_game random _ k q Hl He Hg Hcur Hn) in Hb |- *.
  simpl in Hb |- *. rewrite Hb.
  rewrite list_lookup_fmap in Hb.
  destruct (fst (allAnswers random q k) !! idx) as [a|] eqn:Ha; [|discriminate].
  injection Hb as <-. simpl. rewrite Hsr, Hpend. simpl.
  repeat split; auto.
  apply (Permutation_in a (allAnswers_shuffles random q k)).
  apply list_elem_of_In. eapply list_elem_of_lookup_2. exact Ha.
Qed.

(** X15. A round on the screen is a round of the handlers: in the phase
    Active, clicking a button and letting the timer fire leaves the
    state that [handleAnswerSelect] with the text of that button,
    followed by its timer callback, computes, and no timer pending. *)
Theorem round_on_screen random batch sys idx b :
  reachable random batch sys ->
  phase (st sys) = Active ->
  shownButtons (shown sys) !! idx = Some b ->
  st (timerFires random 0 (clickAnswer random idx sys))
    = selectAndAdvance (st sys) (answer b) /\
  pending (timerFires random 0 (clickAnswer random idx sys)) = [].
Proof.
  intros Hr Hp Hb.
  destruct (clickAnswer_Active random batch sys idx b Hr Hp Hb)
    as (q & Hcur & _ & _ & ->).
  unfold timerFires. rewrite pending_commit, st_commit, seed_commit.
  unfold selectAndAdvance, handleAnswerSelect. rewrite Hcur. simpl.
  rewrite st_commit, pending_commit. split; reflexivity.
Qed.

Lemma round_on_screen_witness :
  st (timerFires shuffling 0 (clickAnswer shuffling 0 fresh))
  = selectAndAdvance (st fresh) "Paris".
Proof.
  apply (round_on_screen shuffling [paris; fortyTwo] fresh 0
           (mkButton "Paris" false)).
  - apply reachable_boot.
  - reflexivity.
  - reflexivity.
Defined.

(** X16. The feedback agrees with the score: after a click on a button
    of an Active screen the same question is shown with every button
    disabled, the verdict shown is "correct" exactly when the text of
    the clicked button equals the correct answer, and the score shown
    has gone up by one exactly in that case. *)
Theorem feedback_matches_score random batch sys idx b :
  reachable random batch sys ->
  phase (st sys) = Active ->
  shownButtons (shown sys) !! idx = Some b ->
  exists q buttons,
    jsIndex (questions (st sys)) (currentQuestionIndex (st sys)) = Some q /\
    shown (clickAnswer random idx sys)
    = GameView (currentQuestionIndex (st sys) + 1)
               (jsLength (questions (st sys)))
               (score (st sys)
                + (if String.eqb (answer b) (correct_answer q) then 1 else 0))
               (question q) buttons
               (Some (String.eqb (answer b) (correct_answer q))) /\
    Forall (fun x => disabled x = true) buttons.
Proof.
  intros Hr Hp Hb.
  destruct (clickAnswer_Active random batch sys idx b Hr Hp Hb)
    as (q & Hcur & _ & _ & ->).
  apply reachable_Inv in Hr.
  destruct Hr as (_ & Hq & Hl & He & Hi & Hs).
  rewrite (phase_at_rest _ Hl He) in Hp.
  destruct (gameOver (st sys)) eqn:Hg; [discriminate|].
  destruct (Z.ltb_spec 0 (jsLength (questions (st sys)))) as [Hn|];
    [|discriminate].
  exists q. rewrite shown_commit.
  set (s1 := after (st sys) (handleAnswerSelect (st sys) (answer b))).
  assert (H1 : s1 = mkState (questions (st sys)) false None
                      (currentQuestionIndex (st sys)) (Some (answer b))
                      (score (st sys)
                       + (if String.eqb (answer b) (correct_answer q)
                          then 1 else 0))
                      true false).
  { subst s1. unfold handleAnswerSelect, after, applyUpdates. rewrite Hcur.
    destruct (String.eqb (answer b) (correct_answer q)); simpl;
      rewrite Hl, He, Hg, ?Z.add_0_r; reflexivity. }
  clearbody s1. subst s1.
  match goal with |- context [render random ?s (seed sys)] =>
    rewrite (render_game random s (seed sys) q eq_refl eq_refl eq_refl Hcur Hn)
  end.
  simpl. eexists. split; [exact Hcur|]. split; [reflexivity|].
  apply Forall_fmap, Forall_true. intros a. reflexivity.
Qed.

Lemma feedback_matches_score_witness :
  exists buttons,
    shown (clickAnswer shuffling 0 fresh)
    = GameView 1 2 1 "Capital of France?" buttons (Some true).
Proof.
  destruct (feedback_matches_score shuffling [paris; fortyTwo] fresh 0
              (mkButton "Paris" false)
              (reachable_boot shuffling [paris; fortyTwo]) eq_refl eq_refl)
    as (q & buttons & Hq & Hv & _).
  injection Hq as <-. exists buttons. exact Hv.
Defined.

(** X17. Every question can be won: on every Active screen of a session
    some button carries the correct answer, and a click on it raises
    the score by one. *)
Theorem some_button_scores random batch sys :
  reachable random batch sys ->
  phase (st sys) = Active ->
  exists idx b q,
    shownButtons (shown sys) !! idx = Some b /\
    jsIndex (questions (st sys)) (currentQuestionIndex (st sys)) = Some q /\
    answer b = correct_answer q /\
    score (st (clickAnswer random idx sys)) = score (st sys) + 1.
Proof.
  intros Hr Hp.
  destruct (shown_game random batch sys Hr (or_introl Hp))
    as (q & k & Hcur & Hbs & _).
  assert (Hin : correct_answer q ∈ fst (allAnswers random q k)).
  { apply list_elem_of_In.
    apply (Permutation_in _ (Permutation_sym (allAnswers_shuffles random q k))).
    left. reflexivity. }
  apply list_elem_of_lookup in Hin. destruct Hin as [idx Hidx].
  assert (Hb : shownButtons (shown sys) !! idx
               = Some (mkButton (correct_answer q) (showResult (st sys)))).
  { rewrite Hbs, list_lookup_fmap, Hidx. reflexivity. }
  exists idx, (mkButton (correct_answer q) (showResult (st sys))), q.
  repeat split; auto.
  destruct (clickAnswer_score random batch sys idx _ Hr Hp Hb)
    as (q' & Hcur' & Hsc).
  rewrite Hcur in Hcur'. injection Hcur' as <-.
  rewrite Hsc. simpl. rewrite String.eqb_refl. reflexivity.
Qed.

Lemma some_button_scores_witness :
  exists idx b q,
    shownButtons (shown fresh) !! idx = Some b /\
    jsIndex (questions (st fresh)) (currentQuestionIndex (st fresh)) = Some q /\
    answer b = correct_answer q /\
    score (st (clickAnswer shuffling idx fresh)) = score (st fresh) + 1.
Proof.
  apply (some_button_scores shuffling [paris; fortyTwo] fresh).
  - apply reachable_boot.
  - reflexivity.
Defined.

(** X18. Nothing but a restart takes progress away: an answer click or
    a timer leaves the score as it is or one higher, and the index as
    it is or one higher; a click never moves the index and a timer
    never changes the score. *)
Theorem progress_only_forward random batch sys e :
  reachable random batch sys ->
  e <> ClickRestart ->
  (score (st (step random e sys)) = score (st sys) \/
   score (st (step random e sys)) = score (st sys) + 1) /\
  (currentQuestionIndex (st (step random e sys)) = currentQuestionIndex (st sys) \/
   currentQuestionIndex (st (step random e sys))
     = currentQuestionIndex (st sys) + 1) /\
  (forall idx, e = ClickAnswer idx ->
     currentQuestionIndex (st (step random e sys))
       = currentQuestionIndex (st sys)) /\
  (forall n, e = TimerFires n ->
     score (st (step random e sys)) = score (st sys)).
Proof.
  intros Hr He.
  destruct e as [idx| |n]; [| contradiction |]; simpl.
  - assert (H : score (st (clickAnswer random idx sys)) = score (st sys) \/
                score (st (clickAnswer random idx sys)) = score (st sys) + 1).
    { destruct (phase (st sys)) eqn:Hp;
        try (rewrite (clickAnswer_inert random batch sys idx Hr)
               by (left; rewrite Hp; discriminate); left; reflexivity).
      destruct (shownButtons (shown sys) !! idx) as [b|] eqn:Hb.
      - destruct (clickAnswer_score random batch sys idx b Hr Hp Hb)
          as (q & _ & ->).
        destruct (String.eqb (answer b) (correct_answer q)); [right|left]; lia.
      - rewrite (clickAnswer_inert random batch sys idx Hr)
          by (right; exact Hb). left; reflexivity. }
    assert (Hi : currentQuestionIndex (st (clickAnswer random idx sys))
                 = currentQuestionIndex (st sys)).
    { destruct (phase (st sys)) eqn:Hp;
        try (rewrite (clickAnswer_inert random batch sys idx Hr)
               by (left; rewrite Hp; discriminate); reflexivity).
      destruct (shownButtons (shown sys) !! idx) as [b|] eqn:Hb.
      - destruct (clickAnswer_Active random batch sys idx b Hr Hp Hb)
          as (q & Hcur & _ & _ & ->).
        rewrite st_commit. unfold handleAnswerSelect, after, applyUpdates.
        rewrite Hcur.
        destruct (String.eqb (answer b) (correct_answer q)); reflexivity.
      - rewrite (clickAnswer_inert random batch sys idx Hr)
          by (right; exact Hb). reflexivity. }
    repeat split; auto; intros; discriminate.
  - apply reachable_Inv in Hr.
    destruct Hr as (_ & Hq & Hl & Herr & Hi & Hs).
    unfold timerFires.
    destruct (pending sys !! n) as [t|] eqn:Ht;
      [|repeat split; auto; intros; discriminate].
    rewrite st_commit. unfold advance, applyUpdates.
    destruct (t_currentQuestionIndex t <? jsLength (t_questions t) - 1) eqn:Hc;
      simpl; [|repeat split; auto; intros; discriminate].
    unfold settled in Hs.
    destruct (gameOver (st sys)).
    { destruct Hs as (Hp & _). rewrite Hp in Ht. discriminate. }
    destruct (showResult (st sys)).
    2:{ destruct Hs as (Hp & _). rewrite Hp in Ht. discriminate. }
    destruct Hs as (Hp & _). rewrite Hp in Ht.
    destruct n; [|discriminate]. injection Ht as <-. simpl.
    repeat split; auto; intros; discriminate.
Qed.

Lemma progress_only_forward_witness :
  score (st (step shuffling (ClickAnswer 0) fresh)) = score (st fresh) \/
  score (st (step shuffling (ClickAnswer 0) fresh)) = score (st fresh) + 1.
Proof.
  apply (progress_only_forward shuffling [paris; fortyTwo] fresh (ClickAnswer 0)).
  - apply reachable_boot.
  - discriminate.
Defined.

(** The answers on screen in the phases Active and Feedback. *)
Lemma shownAnswers_game random batch sys :
  reachable random batch sys ->
  phase (st sys) = Active \/ phase (st sys) = Feedback ->
  exists q,
    jsIndex (questions (st sys)) (currentQuestionIndex (st sys)) = Some q /\
    Permutation (shownAnswers sys) (correct_answer q :: incorrect_answers q).
Proof.
  intros Hr Hp.
  destruct (shown_game random batch sys Hr Hp) as (q & k & Hcur & Hbs & _).
  exists q. split; [exact Hcur|].
  unfold shownAnswers. rewrite Hbs, map_map. simpl. rewrite map_id.
  apply allAnswers_shuffles.
Qed.

(** X19. The colours of the buttons.  While a question is open every
    button is black.  In Feedback the selected answer is one of the
    buttons on screen; the button of the correct answer is light green,
    whether or not it was the one selected; the button of a wrongly
    selected answer is light coral; every other button is black. *)
Theorem button_colours random batch sys :
  reachable random batch sys ->
  (phase (st sys) = Active ->
   forall q x, backgroundColor (st sys) q x = "black"%string) /\
  (phase (st sys) = Feedback ->
   exists a q,
     selectedAnswer (st sys) = Some a /\
     jsIndex (questions (st sys)) (currentQuestionIndex (st sys)) = Some q /\
     In a (shownAnswers sys) /\
     In (correct_answer q) (shownAnswers sys) /\
     backgroundColor (st sys) q (correct_answer q) = "lightgreen"%string /\
     (a <> correct_answer q ->
      backgroundColor (st sys) q a = "lightcoral"%string) /\
     (forall x, x <> correct_answer q -> x <> a ->
                backgroundColor (st sys) q x = "black"%string)).
Proof.
  intros Hr. split; intros Hp.
  - pose proof (reachable_Inv _ _ _ Hr) as (_ & _ & Hl & He & _).
    pose proof (phase_flags _ Hl He) as Hf. rewrite Hp in Hf.
    destruct Hf as (_ & Hsr & _).
    intros q x. unfold backgroundColor. rewrite Hsr. reflexivity.
  - pose proof (reachable_selection _ _ _ Hr) as Hsel.
    destruct (shownAnswers_game random batch sys Hr (or_intror Hp))
      as (q & Hcur & Hperm).
    pose proof (reachable_Inv _ _ _ Hr) as (_ & _ & Hl & He & _).
    pose proof (phase_flags _ Hl He) as Hf. rewrite Hp in Hf.
    destruct Hf as (_ & Hsr & _).
    unfold selection in Hsel. rewrite Hsr in Hsel.
    destruct Hsel as ((a & q' & Ha & Hcur' & Hin) & _).
    rewrite Hcur in Hcur'. injection Hcur' as <-.
    exists a, q. unfold backgroundColor. rewrite Hsr, Ha, String.eqb_refl.
    repeat split; auto.
    + apply (Permutation_in _ (Permutation_sym Hperm)), Hin.
    + apply (Permutation_in _ (Permutation_sym Hperm)). left. reflexivity.
    + intros Hne. apply String.eqb_neq in Hne.
      rewrite Hne, String.eqb_refl. reflexivity.
    + intros x Hx Hxa. apply String.eqb_neq in Hx, Hxa. rewrite Hx, Hxa.
      reflexivity.
Qed.

Lemma button_colours_witness :
  exists a q,
    selectedAnswer (st answered) = Some a /\
    jsIndex (questions (st answered)) (currentQuestionIndex (st answered))
      = Some q /\
    In a (shownAnswers answered) /\
    In (correct_answer q) (shownAnswers answered) /\
    backgroundColor (st answered) q (correct_answer q) = "lightgreen"%string /\
    (a <> correct_answer q ->
     backgroundColor (st answered) q a = "lightcoral"%string) /\
    (forall x, x <> correct_answer q -> x <> a ->
               backgroundColor (st answered) q x = "black"%string).
Proof.
  apply (button_colours shuffling [paris; fortyTwo] answered).
  - apply (reachable_step shuffling [paris; fortyTwo] (ClickAnswer 0) fresh).
    apply reachable_boot.
  - reflexivity.
Defined.

(** X20. "Play Again" puts the first question back on screen: from a
    Finished state the click shows question 1 of N with score 0, no
    verdict, every button enabled, and the answers in the order of a
    new run of the shuffle; the session is then as after loading,
    except for the position in the random source. *)
Theorem clickRestart_shows_first_question random batch sys :
  reachable random batch sys ->
  phase (st sys) = Finished ->
  exists q,
    jsIndex batch 0 = Some q /\
    clickRestart random sys = commit random (loaded batch) [] (seed sys) /\
    shown (clickRestart random sys)
    = GameView 1 (jsLength batch) 0 (question q)
               (map (fun a => mkButton a false)
                    (fst (allAnswers random q (seed sys))))
               None.
Proof.
  intros Hr Hp. apply reachable_Inv in Hr.
  destruct Hr as ((k & Hv & Hk) & Hq & Hl & He & Hi & Hs).
  pose proof (phase_flags _ Hl He) as Hf. rewrite Hp in Hf.
  unfold settled in Hs. rewrite Hf in Hs. destruct Hs as (Hpend & Hne & _).
  assert (Hn : 0 < jsLength batch).
  { pose proof (jsLength_nonneg batch).
    rewrite <- jsLength_nil_iff in Hne. lia. }
  destruct (jsIndex_Some batch 0) as [q Hcur]; [lia|].
  exists q. split; [exact Hcur|].
  assert (E : clickRestart random sys
              = commit random (loaded batch) [] (seed sys)).
  { unfold clickRestart. rewrite Hv. unfold render. rewrite Hl, He, Hf. simpl.
    rewrite Hpend. change (after (st sys) (handleRestartGame (st sys)))
      with (restart (st sys)).
    rewrite restart_frame, Hq, Hl, He. reflexivity. }
  split; [exact E|]. rewrite E, shown_commit.
  rewrite (render_game random (loaded batch) (seed sys) q
             eq_refl eq_refl eq_refl Hcur Hn).
  reflexivity.
Qed.

Lemma clickRestart_shows_first_question_witness :
  clickRestart shuffling played
  = commit shuffling (loaded [paris; fortyTwo]) [] (seed played).
Proof.
  destruct (clickRestart_shows_first_question shuffling [paris; fortyTwo] played)
    as (q & _ & H & _).
  - apply reachable_play. constructor.
  - reflexivity.
  - exact H.
Defined.

(** ** The shuffle when the draws are one-sided *)

Lemma negative_low (r : Q) : (r < 1 # 2)%Q -> negative (r - (1 # 2)) = true.
Proof.
  intros Hlt. unfold negative.
  assert (E : ((r - (1 # 2)) ?= 0)%Q = Lt) by (apply (proj1 (Qlt_alt _ _)); lra).
  rewrite E. reflexivity.
Qed.

Lemma negative_high (r : Q) : (1 # 2 <= r)%Q -> negative (r - (1 # 2)) = false.
Proof.
  intros Hle. unfold negative.
  destruct ((r - (1 # 2)) ?= 0)%Q eqn:E; try reflexivity.
  apply (proj2 (Qlt_alt _ _)) in E. lra.
Qed.

Section OneSided.
Variable random : Random.

(** With every comparison negative a descending run takes in the whole
    array. *)
Lemma extendRun_low (previousElement : string) (rest : list string) (k : nat) :
  (forall n, (random n < 1 # 2)%Q) ->
  extendRun (comparefn random) true previousElement rest k
  = (rest, [], (k + length rest)%nat).
Proof.
  intros Hlow. revert previousElement k.
  induction rest as [|currentElement rest IH]; intros previousElement k; simpl.
  - rewrite Nat.add_0_r. reflexivity.
  - rewrite (negative_low _ (Hlow k)). simpl. rewrite IH.
    f_equal; lia.
Qed.

(** With no comparison negative an ascending run does. *)
Lemma extendRun_high (previousElement : string) (rest : list string) (k : nat) :
  (forall n, (1 # 2 <= random n)%Q) ->
  extendRun (comparefn random) false previousElement rest k
  = (rest, [], (k + length rest)%nat).
Proof.
  intros Hhigh. revert previousElement k.
  induction rest as [|currentElement rest IH]; intros previousElement k; simpl.
  - rewrite Nat.add_0_r. reflexivity.
  - rewrite (negative_high _ (Hhigh k)). simpl. rewrite IH.
    f_equal; lia.
Qed.

Lemma jsSort_low (a : list string) (k : nat) :
  (forall n, (random n < 1 # 2)%Q) ->
  jsSort (comparefn random) a k = (rev a, (k + pred (length a))%nat).
Proof.
  intros Hlow. unfold jsSort, countAndMakeRun.
  destruct a as [|elementHigh [|elementLow rest]]; simpl;
    try (rewrite Nat.add_0_r; reflexivity).
  rewrite (negative_low _ (Hlow k)), (extendRun_low _ _ _ Hlow). simpl.
  f_equal; lia.
Qed.

Lemma jsSort_high (a : list string) (k : nat) :
  (forall n, (1 # 2 <= random n)%Q) ->
  jsSort (comparefn random) a k = (a, (k + pred (length a))%nat).
Proof.
  intros Hhigh. unfold jsSort, countAndMakeRun.
  destruct a as [|elementHigh [|elementLow rest]]; simpl;
    try (rewrite Nat.add_0_r; reflexivity).
  rewrite (negative_high _ (Hhigh k)), (extendRun_high _ _ _ Hhigh). simpl.
  f_equal; lia.
Qed.

End OneSided.

(** X21. When every draw of the random source is below 0.5 every
    comparison is negative: the engine takes the whole array for one
    descending run and reverses it.  The answers appear with the
    correct answer first, followed by the incorrect answers from last to
    first, and one draw per incorrect answer has been used. *)
Theorem allAnswers_low_draws (random : Random) (q : Question) (k : nat) :
  (forall n, (random n < 1 # 2)%Q) ->
  allAnswers random q k
  = (correct_answer q :: rev (incorrect_answers q),
     (k + length (incorrect_answers q))%nat).
Proof.
  intros Hlow. unfold allAnswers.
  rewrite (jsSort_low random _ k Hlow).
  rewrite rev_app_distr, length_app. simpl.
  f_equal. lia.
Qed.

Lemma allAnswers_low_draws_witness :
  allAnswers lowDraws paris 0
  = (["Paris"; "Bern"; "Oslo"; "Rome"]%string, 3%nat).
Proof.
  apply (allAnswers_low_draws lowDraws paris 0).
  intros n. unfold lowDraws. reflexivity.
Defined.

(** X22. When no draw of the random source is below 0.5 no comparison is
    negative: the engine takes the whole array for one ascending run
    and moves nothing.  The answers are not shuffled at all: the
    incorrect answers in their given order, then the correct answer,
    with one draw per incorrect answer used. *)
Theorem allAnswers_high_draws (random : Random) (q : Question) (k : nat) :
  (forall n, (1 # 2 <= random n)%Q) ->
  allAnswers random q k
  = (incorrect_answers q ++ [correct_answer q],
     (k + length (incorrect_answers q))%nat).
Proof.
  intros Hhigh. unfold allAnswers.
  rewrite (jsSort_high random _ k Hhigh).
  rewrite length_app. simpl. f_equal. lia.
Qed.

Lemma allAnswers_high_draws_witness :
  allAnswers highDraws paris 0
  = (["Rome"; "Oslo"; "Bern"; "Paris"]%string, 3%nat).
Proof.
  apply (allAnswers_high_draws highDraws paris 0).
  intros n. unfold highDraws. discriminate.
Defined.

(** A run of the shuffle that uses both parts of the sort.  The first
    draw makes Rome, Oslo an ascending run and the second ends it.  The
    search for Bern compares it with Oslo and leaves it in place.  The
    search for Paris compares it with Oslo (before) and with Rome
    (after) and puts it second.  Five draws are used. *)
Example allAnswers_alternating :
  allAnswers alternating paris 0
  = (["Rome"; "Paris"; "Oslo"; "Bern"]%string, 5%nat).
Proof. reflexivity. Qed.
